(** * Subscription primitives of reactor-core-js ([src/subscription.ts])

    A shallow embedding of the classes of [subscription.ts] and the
    properties its specification states about them.

    - JavaScript numbers are extended rationals ([number]); the only
      operations the source applies to them are [n <= 0] and the bitwise
      [&], both modelled exactly.
    - A method is a computation in a state-and-exception monad over a
      [world]: the fields of the object, the private state of the
      subscriber and the log of everything that happened.  A [throw]
      keeps the state reached so far, as in JavaScript.
    - The subscriber ([mActual]) is arbitrary code: each of its callbacks
      is a finite program ([body]) that may read and write its own state,
      call any method of the subscription it is attached to (re-entrantly),
      catch what those calls throw, and throw itself.  Re-entrant calls
      make the interpreter recursive; [exec] is driven by fuel. *)

From Stdlib Require Import ZArith QArith List Bool Lia.
Import ListNotations.

Close Scope Q_scope.
Local Open Scope Z_scope.

Set Implicit Arguments.

(* ================================================================== *)
(** ** JavaScript numbers *)

(** A [number] is a double: not-a-number, an infinity, or a finite value
    (every finite double is a rational). *)
Inductive number : Type :=
| NaN
| PosInf
| NegInf
| Num (q : Q).

Definition of_Z (z : Z) : number := Num (inject_Z z).

(** [n <= 0] *)
Definition num_le0 (n : number) : bool :=
  match n with
  | NaN => false
  | PosInf => false
  | NegInf => true
  | Num q => Qnum q <=? 0
  end.

(** [n > 0] *)
Definition num_gt0 (n : number) : bool :=
  match n with
  | NaN => false
  | PosInf => true
  | NegInf => false
  | Num q => 0 <? Qnum q
  end.

(** ECMAScript ToInt32: truncate towards zero, wrap modulo 2^32 into the
    signed range; NaN and the infinities give 0. *)
Definition ToInt32 (n : number) : Z :=
  match n with
  | Num q =>
      let m := (Z.quot (Qnum q) (Z.pos (Qden q))) mod 2 ^ 32 in
      if 2 ^ 31 <=? m then m - 2 ^ 32 else m
  | _ => 0
  end.

(** [a & b] *)
Definition band (a b : number) : Z := Z.land (ToInt32 a) (ToInt32 b).

(* ================================================================== *)
(** ** Errors, object references, outcomes *)

(** The [Error] values of the module, one constructor per [new Error]
    site; [InvalidDemand n] stands for the message
    ["n > 0 required but it was " + n]. *)
Inductive Error : Type :=
| InvalidDemand (n : number)   (* SH.validRequest *)
| NullSubscription             (* "s is null" *)
| AlreadySet                   (* "Subscription already set!" *)
| UnsupportedInFusion          (* EmptySubscription.offer *)
| FC_unsupported               (* flow.FC.unsupported() *)
| Terminated                   (* SH.TERMINAL_ERROR *)
| TypeError                    (* a method called on undefined *)
| UserError (code : nat).      (* any error of the application *)

(** Object identities: the two singletons and all other objects. *)
Inductive ref : Type :=
| CANCELLED_INSTANCE
| EMPTY_INSTANCE
| Obj (id : nat).

Definition ref_eqb (a b : ref) : bool :=
  match a, b with
  | CANCELLED_INSTANCE, CANCELLED_INSTANCE => true
  | EMPTY_INSTANCE, EMPTY_INSTANCE => true
  | Obj i, Obj j => Nat.eqb i j
  | _, _ => false
  end.

(** How a call ends: it returns, it throws, or the interpreter ran out of
    fuel (a re-entrant recursion deeper than the fuel given). *)
Inductive outcome (A : Type) : Type :=
| Normal (a : A)
| Throw (e : Error)
| OutOfFuel.

Arguments Throw {A} e.
Arguments OutOfFuel {A}.

(** The state-and-exception monad over a world [W]. *)
Definition M (W A : Type) : Type := W -> outcome A * W.

Definition ret {W A} (a : A) : M W A := fun w => (Normal a, w).

Definition throw {W A} (e : Error) : M W A := fun w => (Throw e, w).

Definition bind {W A B} (m : M W A) (k : A -> M W B) : M W B :=
  fun w =>
    match m w with
    | (Normal a, w') => k a w'
    | (Throw e, w') => (Throw e, w')
    | (OutOfFuel, w') => (OutOfFuel, w')
    end.

Declare Scope js_scope.
Delimit Scope js_scope with js.
Notation "x <- m ;; k" := (bind m (fun x => k))
  (at level 61, m at next level, right associativity) : js_scope.
Notation "m ;; k" := (bind m (fun _ => k))
  (at level 61, right associativity) : js_scope.
Local Open Scope js_scope.

(* ================================================================== *)
(** ** Protocol vocabulary *)

Section Vocabulary.
Variable T : Type.

(** The four callbacks of [rs.Subscriber<T>].  The argument of [onNext]
    is whatever the caller passes: [None] is a field that was never
    assigned. *)
Inductive signal : Type :=
| OnSubscribe (s : ref)
| OnNext (v : option T)
| OnError (e : Error)
| OnComplete.

(** The methods of [flow.QueueSubscription<T>]. *)
Inductive qcall : Type :=
| Request (n : number)
| Cancel
| RequestFusion (mode : number)
| Offer (t : T)
| Poll
| IsEmpty
| Size
| Clear.

(** What a method returns: [undefined] (what a method without a
    [return] value gives), a [number], a [boolean], or a value of [T]
    where [RVal None] is [null]. *)
Inductive reply : Type :=
| RUnit
| RNum (n : number)
| RBool (b : bool)
| RVal (v : option T).
End Vocabulary.

Arguments OnSubscribe {T} s.
Arguments OnError {T} e.
Arguments OnComplete {T}.
Arguments Cancel {T}.
Arguments Request {T} n.
Arguments RequestFusion {T} mode.
Arguments Poll {T}.
Arguments IsEmpty {T}.
Arguments Size {T}.
Arguments Clear {T}.
Arguments RUnit {T}.
Arguments RNum {T} n.
Arguments RBool {T} b.

(** The fusion constants of [flow.FC], which lives outside this file of
    the repository: they are parameters of everything that uses them. *)
Record FC : Type := {
  NONE : number;
  SYNC : number;
  ASYNC : number;
  BOUNDARY : number
}.

(* ================================================================== *)
(** ** Calls that leave the module *)

(** [SH.validSubscription] and [SuppressFusionSubscriber] call methods of
    objects they are handed: a subscription ([s.request(n)], [s.cancel()])
    or a subscriber.  Such a call is recorded, and how it ends is decided
    by the environment from everything recorded so far. *)
Section Externals.
Variable T : Type.

Inductive ext_call : Type :=
| SubRequest (s : ref) (n : number)     (* s.request(n) *)
| SubCancel (s : ref)                   (* s.cancel() *)
| Callback (a : ref) (sig : signal T).  (* a.onSubscribe(..), a.onNext(..), .. *)

Definition environment : Type := list ext_call -> ext_call -> outcome unit.

Definition extern (answer : environment) (c : ext_call)
  : M (list ext_call) unit :=
  fun h => (answer h c, h ++ [c]).
End Externals.

Arguments SubRequest {T} s n.
Arguments SubCancel {T} s.

(* ================================================================== *)
(** ** Validation helpers ([SH]) *)

Module SH.
(** [static validRequest(n)] *)
Definition validRequest {W} (n : number) : M W bool :=
  if num_le0 n then throw (InvalidDemand n) else ret true.

(** [static get CANCELLED()] *)
Definition CANCELLED : ref := CANCELLED_INSTANCE.

(** [static get TERMINAL_ERROR()] *)
Definition TERMINAL_ERROR : Error := Terminated.

(** [static validSubscription(current, s)]; [None] is [null] (or
    [undefined], which [== null] does not tell apart). *)
Definition validSubscription {T} (answer : environment T)
    (current s : option ref) : M (list (ext_call T)) bool :=
  match s with
  | None => throw NullSubscription
  | Some s' =>
      match current with
      | Some c =>
          extern answer (SubCancel s') ;;
          if negb (ref_eqb c CANCELLED) then throw AlreadySet
          else ret false
      | None => ret true
      end
  end.
End SH.

(* ================================================================== *)
(** ** The machine: an object, its subscriber and the log *)

Section Machine.
Variables T F U C : Type.

(** Everything observable, in order: a method of the object entered,
    a callback of the subscriber entered, a method returned. *)
Inductive entry : Type :=
| Invoked (c : C)
| Signal (s : signal T)
| Returned (r : reply T).

Record world : Type := World {
  obj : F;              (* the fields of the subscription *)
  sub : U;              (* the private state of the subscriber *)
  log : list entry
}.

Definition gets {A} (f : F -> A) : M world A :=
  fun w => (Normal (f (obj w)), w).

Definition modify (f : F -> F) : M world unit :=
  fun w => (Normal tt, World (f (obj w)) (sub w) (log w)).

Definition emit (e : entry) : M world unit :=
  fun w => (Normal tt, World (obj w) (sub w) (log w ++ [e])).

(** [w] with one more entry in its log, and [w] as a method that ended
    with [o] leaves it. *)
Definition logged (w : world) (e : entry) : world :=
  World (obj w) (sub w) (log w ++ [e]).

Definition finish (o : outcome (reply T)) (w : world) : world :=
  match o with
  | Normal r => logged w (Returned r)
  | _ => w
  end.

(** What a re-entrant call gives back to the callback that made it. *)
Inductive result : Type :=
| Gave (r : reply T)
| Caught (e : Error).

(** The code of one callback of the subscriber. *)
Inductive body : Type :=
| Done
| Raise (e : Error)
| Get (k : U -> body)
| Put (s : U) (k : body)
| Invoke (c : C) (k : result -> body).

Fixpoint run_body (invoke : C -> M world (reply T)) (b : body) : M world unit :=
  match b with
  | Done => ret tt
  | Raise e => throw e
  | Get k => fun w => run_body invoke (k (sub w)) w
  | Put s k => fun w => run_body invoke k (World (obj w) s (log w))
  | Invoke c k =>
      fun w =>
        match invoke c w with
        | (Normal r, w') => run_body invoke (k (Gave r)) w'
        | (Throw e, w') => run_body invoke (k (Caught e)) w'
        | (OutOfFuel, w') => (OutOfFuel, w')
        end
  end.

(** [react]: the subscriber, one body per callback.
    [method]: the methods of the object, given how to call
    [this.mActual]. *)
Variable react : signal T -> body.
Variable method : (signal T -> M world unit) -> C -> M world (reply T).

(** Calling a callback of the subscriber: it is logged, then its body
    runs, with [invoke] for the calls it makes. *)
Definition deliver (invoke : C -> M world (reply T)) (sig : signal T)
  : M world unit :=
  emit (Signal sig) ;;
  run_body invoke (react sig).

Fixpoint exec (fuel : nat) (c : C) : M world (reply T) :=
  match fuel with
  | O => fun w => (OutOfFuel, w)
  | S fuel' =>
      emit (Invoked c) ;;
      r <- method (deliver (exec fuel')) c ;;
      emit (Returned r) ;;
      ret r
  end.

(** A caller issuing calls one after the other, going on after a call
    that threw. *)
Fixpoint run (fuel : nat) (cs : list C) (w : world)
  : list (outcome (reply T)) * world :=
  match cs with
  | [] => ([], w)
  | c :: cs' =>
      let (o, w1) := exec fuel c w in
      let (os, w2) := run fuel cs' w1 in
      (o :: os, w2)
  end.

(** The callbacks the subscriber received, in order. *)
Fixpoint signals (l : list entry) : list (signal T) :=
  match l with
  | [] => []
  | Signal s :: l' => s :: signals l'
  | _ :: l' => signals l'
  end.
End Machine.

Arguments Done {T U C}.
Arguments Raise {T U C} e.
Arguments Invoked {T C} c.
Arguments Signal {T C} s.
Arguments Returned {T C} r.
Arguments Get {T U C} k.
Arguments Put {T U C} s k.
Arguments Invoke {T U C} c k.
Arguments Gave {T} r.
Arguments Caught {T} e.

(* ================================================================== *)
(** ** [DeferrendScalarSubscription<T>] *)

Inductive DeferredState : Type :=
| NO_REQUEST_NO_VALUE
| HAS_REQUEST_NO_VALUE
| NO_REQUEST_HAS_VALUE
| HAS_REQUEST_HAS_VALUE
| CANCELLED.

Inductive FusedState : Type :=
| NOT_FUSED
| NO_VALUE
| HAS_VALUE
| COMPLETE.

Definition DeferredState_eqb (a b : DeferredState) : bool :=
  match a, b with
  | NO_REQUEST_NO_VALUE, NO_REQUEST_NO_VALUE
  | HAS_REQUEST_NO_VALUE, HAS_REQUEST_NO_VALUE
  | NO_REQUEST_HAS_VALUE, NO_REQUEST_HAS_VALUE
  | HAS_REQUEST_HAS_VALUE, HAS_REQUEST_HAS_VALUE
  | CANCELLED, CANCELLED => true
  | _, _ => false
  end.

Definition FusedState_eqb (a b : FusedState) : bool :=
  match a, b with
  | NOT_FUSED, NOT_FUSED
  | NO_VALUE, NO_VALUE
  | HAS_VALUE, HAS_VALUE
  | COMPLETE, COMPLETE => true
  | _, _ => false
  end.

Module DeferrendScalarSubscription.
Section Class.
Variable fc : FC.
Variables T U : Type.

(** The fields; [mValue] is [None] until it is assigned.  The field
    [mActual] is the subscriber of the machine. *)
Record fields : Type := Fields {
  mValue : option T;
  mState : DeferredState;
  mFused : FusedState
}.

(** The public methods: [complete] and the queue-subscription ones. *)
Inductive call : Type :=
| Complete (t : T)
| Queue (c : qcall T).

Definition W : Type := world T fields U call.

Definition set_mValue (v : option T) : M W unit :=
  modify (fun o => Fields v (mState o) (mFused o)).
Definition set_mState (s : DeferredState) : M W unit :=
  modify (fun o => Fields (mValue o) s (mFused o)).
Definition set_mFused (f : FusedState) : M W unit :=
  modify (fun o => Fields (mValue o) (mState o) f).

(** [constructor(actual)] *)
Definition new : fields := Fields None NO_REQUEST_NO_VALUE NOT_FUSED.

Section Methods.
(** [this.mActual] *)
Variable mActual : signal T -> M W unit.

Definition complete (t : T) : M W unit :=
  f <- gets mFused ;;
  if FusedState_eqb f NO_VALUE then
    set_mValue (Some t) ;;
    set_mFused HAS_VALUE ;;
    mActual (OnNext (Some t)) ;;
    mActual OnComplete
  else
    s <- gets mState ;;
    if DeferredState_eqb s HAS_REQUEST_NO_VALUE then
      set_mState HAS_REQUEST_HAS_VALUE ;;
      mActual (OnNext (Some t)) ;;
      s' <- gets mState ;;
      if negb (DeferredState_eqb s' CANCELLED) then mActual OnComplete
      else ret tt
    else if DeferredState_eqb s NO_REQUEST_NO_VALUE then
      set_mValue (Some t) ;;
      set_mState NO_REQUEST_HAS_VALUE
    else ret tt.

Definition request (n : number) : M W unit :=
  valid <- SH.validRequest n ;;
  if valid : bool then
    s <- gets mState ;;
    if DeferredState_eqb s NO_REQUEST_HAS_VALUE then
      set_mState HAS_REQUEST_HAS_VALUE ;;
      v <- gets mValue ;;
      mActual (OnNext v) ;;
      s' <- gets mState ;;
      if negb (DeferredState_eqb s' CANCELLED) then mActual OnComplete
      else ret tt
    else if DeferredState_eqb s NO_REQUEST_NO_VALUE then
      set_mState HAS_REQUEST_NO_VALUE
    else ret tt
  else ret tt.

Definition cancel : M W unit :=
  set_mState CANCELLED ;;
  set_mFused COMPLETE.

Definition requestFusion (mode : number) : M W number :=
  if negb (band mode (ASYNC fc) =? 0) && (band mode (BOUNDARY fc) =? 0)
  then set_mFused NO_VALUE ;; ret (ASYNC fc)
  else ret (NONE fc).

Definition offer (t : T) : M W bool := throw FC_unsupported.

Definition poll : M W (option T) :=
  f <- gets mFused ;;
  if FusedState_eqb f HAS_VALUE then
    set_mFused COMPLETE ;;
    gets mValue
  else ret None.

Definition isEmpty : M W bool :=
  f <- gets mFused ;;
  ret (negb (FusedState_eqb f HAS_VALUE)).

Definition size : M W number :=
  e <- isEmpty ;;
  ret (if e then of_Z 0 else of_Z 1).

Definition clear : M W unit := set_mFused COMPLETE.

Definition method (c : call) : M W (reply T) :=
  match c with
  | Complete t => complete t ;; ret RUnit
  | Queue (Request n) => request n ;; ret RUnit
  | Queue Cancel => cancel ;; ret RUnit
  | Queue (RequestFusion mode) => r <- requestFusion mode ;; ret (RNum r)
  | Queue (Offer t) => b <- offer t ;; ret (RBool b)
  | Queue Poll => v <- poll ;; ret (RVal v)
  | Queue IsEmpty => b <- isEmpty ;; ret (RBool b)
  | Queue Size => n <- size ;; ret (RNum n)
  | Queue Clear => clear ;; ret RUnit
  end.
End Methods.

(** A fresh instance attached to a subscriber in state [u]. *)
Definition fresh (u : U) : W := World new u [].
End Class.

Arguments new {T}.
Arguments fresh {T U} u.
Arguments Complete {T} t.
Arguments Queue {T} c.
Arguments complete {T U} mActual t.
Arguments request {T U} mActual n.
Arguments cancel {T U}.
Arguments requestFusion fc {T U} mode.
Arguments offer {T U} t.
Arguments poll {T U}.
Arguments isEmpty {T U}.
Arguments size {T U}.
Arguments clear {T U}.
Arguments method fc {T U} mActual c.
End DeferrendScalarSubscription.


(* ================================================================== *)
(** ** [CancelledSubscription] *)

Module CancelledSubscription.
Section Class.
Variable W : Type.

Definition request (n : number) : M W unit := ret tt.
Definition cancel : M W unit := ret tt.
End Class.
End CancelledSubscription.

(* ================================================================== *)
(** ** [EmptySubscription] *)

Module EmptySubscription.
Section Class.
Variable fc : FC.
Variables T U : Type.

(** The class has no fields. *)
Definition W : Type := world T unit U (qcall T).

Definition request (n : number) : M W unit := ret tt.
Definition cancel : M W unit := ret tt.
Definition requestFusion (mode : number) : M W number := ret (NONE fc).
Definition offer (t : T) : M W bool := throw UnsupportedInFusion.
Definition poll : M W (option T) := ret None.
Definition isEmpty : M W bool := ret true.
Definition size : M W number := ret (of_Z 0).
Definition clear : M W unit := ret tt.

Definition method (mActual : signal T -> M W unit) (c : qcall T)
  : M W (reply T) :=
  match c with
  | Request n => request n ;; ret RUnit
  | Cancel => cancel ;; ret RUnit
  | RequestFusion mode => r <- requestFusion mode ;; ret (RNum r)
  | Offer t => b <- offer t ;; ret (RBool b)
  | Poll => v <- poll ;; ret (RVal v)
  | IsEmpty => b <- isEmpty ;; ret (RBool b)
  | Size => n <- size ;; ret (RNum n)
  | Clear => clear ;; ret RUnit
  end.

(** [static get INSTANCE()] *)
Definition INSTANCE : ref := EMPTY_INSTANCE.

(** [static complete(s)] *)
Definition complete (s : signal T -> M W unit) : M W unit :=
  s (OnSubscribe INSTANCE) ;;
  s OnComplete.

(** [static error(s, e)] *)
Definition error (s : signal T -> M W unit) (e : Error) : M W unit :=
  s (OnSubscribe INSTANCE) ;;
  s (OnError e).
End Class.

Arguments request {T U} n.
Arguments cancel {T U}.
Arguments method fc {T U} mActual c.
Arguments complete {T U} s.
Arguments error {T U} s e.
End EmptySubscription.

(* ================================================================== *)
(** ** [ScalarSubscription<T>] *)

Module ScalarSubscription.
Section Class.
Variable fc : FC.
Variables T U : Type.

(** [once] is never initialised by the constructor and only ever
    assigned [true]: it is [undefined] or [true].  The field is [false]
    here while it is [undefined]; the tests of the class read
    [undefined] as false, and [isEmpty()], which returns the field
    itself, tells the two apart. *)
Record fields : Type := Fields {
  mValue : T;
  once : bool
}.

Definition W : Type := world T fields U (qcall T).

Definition set_once (b : bool) : M W unit :=
  modify (fun o => Fields (mValue o) b).

(** [constructor(value, actual)] *)
Definition new (value : T) : fields := Fields value false.

Section Methods.
Variable mActual : signal T -> M W unit.

Definition request (n : number) : M W unit :=
  valid <- SH.validRequest n ;;
  if valid : bool then
    o <- gets once ;;
    if negb o then
      set_once true ;;
      v <- gets mValue ;;
      mActual (OnNext (Some v)) ;;
      mActual OnComplete
    else ret tt
  else ret tt.

Definition cancel : M W unit := set_once true.

Definition offer (t : T) : M W bool := throw FC_unsupported.

Definition poll : M W (option T) :=
  o <- gets once ;;
  if negb o then
    set_once true ;;
    v <- gets mValue ;;
    ret (Some v)
  else ret None.

(** [return this.once]: [true] once the field was set, [undefined]
    before. *)
Definition isEmpty : M W (reply T) :=
  o <- gets once ;;
  ret (if o then RBool true else RUnit).

Definition clear : M W unit := set_once true.

Definition size : M W number :=
  o <- gets once ;;
  ret (if o then of_Z 0 else of_Z 1).

Definition requestFusion (mode : number) : M W number :=
  if negb (band mode (SYNC fc) =? 0) then ret (SYNC fc)
  else ret (NONE fc).

Definition method (c : qcall T) : M W (reply T) :=
  match c with
  | Request n => request n ;; ret RUnit
  | Cancel => cancel ;; ret RUnit
  | RequestFusion mode => r <- requestFusion mode ;; ret (RNum r)
  | Offer t => b <- offer t ;; ret (RBool b)
  | Poll => v <- poll ;; ret (RVal v)
  | IsEmpty => isEmpty
  | Size => n <- size ;; ret (RNum n)
  | Clear => clear ;; ret RUnit
  end.
End Methods.

(** A fresh instance holding [value], attached to a subscriber in
    state [u]. *)
Definition fresh (value : T) (u : U) : W := World (new value) u [].
End Class.

Arguments new {T} value.
Arguments fresh {T U} value u.
Arguments request {T U} mActual n.
Arguments cancel {T U}.
Arguments poll {T U}.
Arguments isEmpty {T U}.
Arguments size {T U}.
Arguments method fc {T U} mActual c.
End ScalarSubscription.

(* ================================================================== *)
(** ** [SuppressFusionSubscriber<T>] *)

Module SuppressFusionSubscriber.
Section Class.
Variable fc : FC.
Variable T : Type.

(** [mActual] is the subscriber that is wrapped, [s] the upstream
    subscription: [None] until [onSubscribe] assigns it. *)
Record fields : Type := Fields {
  mActual : ref;
  s : option ref
}.

(** The adapter and the record of the calls it made on other objects. *)
Definition W : Type := (fields * list (ext_call T))%type.

Variable answer : environment T.

(** An outside call leaves the fields of the adapter as they are. *)
Definition outside (c : ext_call T) : M W unit :=
  fun w => let (o, h) := extern answer c (snd w) in (o, (fst w, h)).

Definition field {A} (f : fields -> A) : M W A :=
  fun w => (Normal (f (fst w)), w).

(** [constructor(actual)] *)
Definition new (actual : ref) : fields := Fields actual None.

(** [this] is the identity of the adapter itself. *)
Variable this : ref.

Definition onSubscribe (s' : ref) : M W unit :=
  (fun w => (Normal tt, (Fields (mActual (fst w)) (Some s'), snd w))) ;;
  a <- field mActual ;;
  outside (Callback a (OnSubscribe this)).

Definition onNext (t : T) : M W unit :=
  a <- field mActual ;;
  outside (Callback a (OnNext (Some t))).

Definition onError (t : Error) : M W unit :=
  a <- field mActual ;;
  outside (Callback a (OnError t)).

Definition onComplete : M W unit :=
  a <- field mActual ;;
  outside (Callback a OnComplete).

Definition request (n : number) : M W unit :=
  u <- field s ;;
  match u with
  | Some s' => outside (SubRequest s' n)
  | None => throw TypeError
  end.

Definition cancel : M W unit :=
  u <- field s ;;
  match u with
  | Some s' => outside (SubCancel s')
  | None => throw TypeError
  end.

Definition requestFusion (mode : number) : M W number := ret (NONE fc).
Definition offer (t : T) : M W bool := throw FC_unsupported.
Definition poll : M W (option T) := ret None.
Definition isEmpty : M W bool := ret true.
Definition size : M W number := ret (of_Z 0).
Definition clear : M W unit := ret tt.
End Class.

Arguments new actual : clear implicits.
End SuppressFusionSubscriber.

(* ================================================================== *)
(** ** Kinds of subscriber *)

Section Subscribers.
Variables T U C : Type.

(** A callback that calls nothing and throws nothing; it may still
    update the subscriber's own state. *)
Inductive quiet : body T U C -> Prop :=
| quiet_Done : quiet Done
| quiet_Get k : (forall u, quiet (k u)) -> quiet (Get k)
| quiet_Put u k : quiet k -> quiet (Put u k).

(** A callback that throws nothing of its own and lets nothing escape:
    whatever a call it makes throws, it goes on. *)
Inductive calm : body T U C -> Prop :=
| calm_Done : calm Done
| calm_Get k : (forall u, calm (k u)) -> calm (Get k)
| calm_Put u k : calm k -> calm (Put u k)
| calm_Invoke c k : (forall r, calm (k r)) -> calm (Invoke c k).

(** A callback all of whose calls satisfy [ok]. *)
Inductive calls_only (ok : C -> Prop) : body T U C -> Prop :=
| only_Done : calls_only ok Done
| only_Raise e : calls_only ok (Raise e)
| only_Get k : (forall u, calls_only ok (k u)) -> calls_only ok (Get k)
| only_Put u k : calls_only ok k -> calls_only ok (Put u k)
| only_Invoke c k :
    ok c -> (forall r, calls_only ok (k r)) -> calls_only ok (Invoke c k).
End Subscribers.

Arguments quiet {T U C} b.
Arguments calm {T U C} b.
Arguments calls_only {T U C} ok b.

(** The subscriber that does nothing in any callback. *)
Definition passive {T U C} : signal T -> body T U C := fun _ => Done.

(** The constants as the [flow] module of the repository defines them:
    [NONE = 0], [SYNC = 1], [ASYNC = 2], [BOUNDARY = 7].  The module is
    not part of [subscription.ts]: the statements below take the
    constants as a parameter, and are instantiated with these values. *)
Definition fc_flow : FC := Build_FC (of_Z 0) (of_Z 1) (of_Z 2) (of_Z 7).

(** An environment in which every outside call returns. *)
Definition all_return {T} : environment T := fun _ _ => Normal tt.

Module D := DeferrendScalarSubscription.
Module Sc := ScalarSubscription.
Module Em := EmptySubscription.
Module Ad := SuppressFusionSubscriber.

(* ================================================================== *)
(** ** Vocabulary of the statements *)

Section DeferredVocabulary.
Variable fc : FC.
Variables T U : Type.

(** [mode] asks for async fusion and not for the boundary restriction. *)
Definition grants (mode : number) : Prop :=
  band mode (ASYNC fc) <> 0 /\ band mode (BOUNDARY fc) = 0.

(** Any call but [complete]. *)
Definition not_complete (c : D.call T) : Prop :=
  match c with
  | D.Complete _ => False
  | D.Queue _ => True
  end.

(** Nothing is ready for [poll] in [w]; if so before a call, then so
    after it. *)
Definition not_ready (w : D.W T U) : Prop := D.mFused (obj w) <> HAS_VALUE.
Definition stays_not_ready (w w' : D.W T U) : Prop :=
  not_ready w -> not_ready w'.

(** What [poll()] and [isEmpty()] answer while nothing is ready. *)
Definition answers_empty (c : D.call T) (o : outcome (reply T)) : Prop :=
  (c = D.Queue Poll -> o = Normal (RVal None))
  /\ (c = D.Queue IsEmpty -> o = Normal (RBool true)).

(** A call that leaves the fusion track alone: any call but a
    [requestFusion] that is granted. *)
Definition unfused_call (c : D.call T) : Prop :=
  match c with
  | D.Queue (RequestFusion mode) => ~ grants mode
  | _ => True
  end.

(** A call that neither cancels nor arms fusion. *)
Definition harmless (c : D.call T) : Prop :=
  c <> D.Queue Cancel /\ unfused_call c.

(** The object has delivered (or is delivering) on the request/value
    track and fusion is not armed. *)
Definition delivered (w : D.W T U) : Prop :=
  D.mState (obj w) = HAS_REQUEST_HAS_VALUE /\ D.mFused (obj w) <> NO_VALUE.

Definition is_cancel (e : entry T (D.call T)) : bool :=
  match e with
  | Invoked (D.Queue Cancel) => true
  | _ => false
  end.

Definition is_completion (e : entry T (D.call T)) : bool :=
  match e with
  | Signal OnComplete => true
  | _ => false
  end.

(** [cancel()] was called. *)
Definition cancelled (l : list (entry T (D.call T))) : bool :=
  existsb is_cancel l.

(** How many times [onComplete()] was called. *)
Fixpoint completions (l : list (entry T (D.call T))) : nat :=
  match l with
  | [] => 0
  | e :: l' => (if is_completion e then 1 else 0) + completions l'
  end.

(** Some [onComplete()] was called after a [cancel()] had been;
    [seen] tells whether a [cancel()] came before [l]. *)
Fixpoint late_completion (seen : bool) (l : list (entry T (D.call T))) : bool :=
  match l with
  | [] => false
  | e :: l' =>
      (seen && is_completion e) || late_completion (seen || is_cancel e) l'
  end.

(** The request/value track has delivered or was cancelled. *)
Definition settled (s : DeferredState) : bool :=
  match s with
  | HAS_REQUEST_HAS_VALUE | CANCELLED => true
  | _ => false
  end.

(** What holds of the fields and the log while fusion is not armed. *)
Definition ordinary_ok (f : FusedState) (s : DeferredState)
    (l : list (entry T (D.call T))) : Prop :=
  f <> NO_VALUE
  /\ (cancelled l = true -> s = CANCELLED)
  /\ (settled s = false -> completions l = 0%nat)
  /\ (completions l <= 1)%nat
  /\ late_completion false l = false.

Definition ordinary_inv (w : D.W T U) : Prop :=
  ordinary_ok (D.mFused (obj w)) (D.mState (obj w)) (log w).

Definition ordinary_step (w w' : D.W T U) : Prop :=
  ordinary_inv w ->
  ordinary_inv w'
  /\ (settled (D.mState (obj w)) = true ->
      settled (D.mState (obj w')) = true
      /\ completions (log w') = completions (log w)).

End DeferredVocabulary.

Arguments not_complete {T} c.
Arguments not_ready {T U} w.
Arguments stays_not_ready {T U} w w'.
Arguments answers_empty {T} c o.
Arguments unfused_call fc {T} c.
Arguments harmless fc {T} c.
Arguments delivered {T U} w.
Arguments is_cancel {T} e.
Arguments is_completion {T} e.
Arguments cancelled {T} l.
Arguments completions {T} l.
Arguments late_completion {T} seen l.
Arguments ordinary_ok {T} f s l.
Arguments ordinary_inv {T U} w.
Arguments ordinary_step {T U} w w'.

Section ScalarVocabulary.
Variables T U : Type.

(** The number of times a value was handed over: pushed by [onNext] or
    returned by [poll]. *)
Definition yield (e : entry T (qcall T)) : nat :=
  match e with
  | Signal (OnNext _) => 1
  | Returned (RVal (Some _)) => 1
  | _ => 0
  end.

Fixpoint yields (l : list (entry T (qcall T))) : nat :=
  match l with
  | [] => 0
  | e :: l' => yield e + yields l'
  end.

(** Across a call: either nothing was handed over and [once] is as it
    was, or [once] went from false to true and at most one value was
    handed over. *)
Definition scalar_step (w w' : Sc.W T U) : Prop :=
  (Sc.once (obj w') = Sc.once (obj w) /\ yields (log w') = yields (log w))
  \/ (Sc.once (obj w) = false /\ Sc.once (obj w') = true
      /\ (yields (log w') <= yields (log w) + 1)%nat).

(** At most one value was handed over, and none while [once] is false. *)
Definition scalar_inv (w : Sc.W T U) : Prop :=
  (yields (log w) <= 1)%nat
  /\ (Sc.once (obj w) = false -> yields (log w) = 0%nat).

End ScalarVocabulary.

Arguments yield {T} e.
Arguments yields {T} l.
Arguments scalar_step {T U} w w'.
Arguments scalar_inv {T U} w.

(** A subscriber that asks for more and polls from inside [onNext]. *)
Definition requests_in_onNext : signal nat -> body nat unit (D.call nat) :=
  fun sig =>
    match sig with
    | OnNext _ =>
        Invoke (D.Queue (Request (of_Z 1)))
          (fun _ => Invoke (D.Queue Poll) (fun _ => Done))
    | _ => Done
    end.

(** A subscriber that cancels from inside [onNext]. *)
Definition cancels_in_onNext : signal nat -> body nat unit (D.call nat) :=
  fun sig =>
    match sig with
    | OnNext _ => Invoke (D.Queue Cancel) (fun _ => Done)
    | _ => Done
    end.

(* ================================================================== *)
(** ** Drivers and vocabulary of the further statements *)

(** *** A session with the fusion-suppressing adapter *)

Section AdapterSession.
Variable fc : FC.
Variable T : Type.
Variable answer : environment T.
Variable this : ref.

(** The adapter is a subscriber and a queue subscription: a call on it is
    one of the four callbacks or one of the queue-subscription methods. *)
Inductive adapter_call : Type :=
| AOnSubscribe (s : ref)
| AOnNext (t : T)
| AOnError (e : Error)
| AOnComplete
| AQueue (c : qcall T).

Definition adapter_method (c : adapter_call) : M (Ad.W T) (reply T) :=
  match c with
  | AOnSubscribe s => Ad.onSubscribe answer this s ;; ret RUnit
  | AOnNext t => Ad.onNext answer t ;; ret RUnit
  | AOnError e => Ad.onError answer e ;; ret RUnit
  | AOnComplete => Ad.onComplete answer ;; ret RUnit
  | AQueue (Request n) => Ad.request answer n ;; ret RUnit
  | AQueue Cancel => Ad.cancel answer ;; ret RUnit
  | AQueue (RequestFusion mode) =>
      r <- Ad.requestFusion fc mode ;; ret (RNum r)
  | AQueue (Offer t) => b <- Ad.offer t ;; ret (RBool b)
  | AQueue Poll => v <- Ad.poll (T := T) ;; ret (RVal v)
  | AQueue IsEmpty => b <- Ad.isEmpty (T := T) ;; ret (RBool b)
  | AQueue Size => n <- Ad.size (T := T) ;; ret (RNum n)
  | AQueue Clear => Ad.clear (T := T) ;; ret RUnit
  end.

(** Calls made one after the other, going on after a call that threw. *)
Fixpoint adapter_run (cs : list adapter_call) (w : Ad.W T)
  : list (outcome (reply T)) * Ad.W T :=
  match cs with
  | [] => ([], w)
  | c :: cs' =>
      let (o, w1) := adapter_method c w in
      let (os, w2) := adapter_run cs' w1 in
      (o :: os, w2)
  end.

(** What a session is expected to make of outside calls: every callback
    goes to the wrapped subscriber [actual], with the adapter itself as
    the subscription; [request] and [cancel] go to the upstream [up]
    handed over last; the queue view calls nothing. *)
Fixpoint forwards (actual : ref) (up : option ref) (cs : list adapter_call)
  : list (ext_call T) :=
  match cs with
  | [] => []
  | AOnSubscribe s :: cs' =>
      Callback actual (OnSubscribe this) :: forwards actual (Some s) cs'
  | AOnNext t :: cs' =>
      Callback actual (OnNext (Some t)) :: forwards actual up cs'
  | AOnError e :: cs' =>
      Callback actual (OnError e) :: forwards actual up cs'
  | AOnComplete :: cs' =>
      Callback actual OnComplete :: forwards actual up cs'
  | AQueue (Request n) :: cs' =>
      match up with
      | Some u => SubRequest u n :: forwards actual up cs'
      | None => forwards actual up cs'
      end
  | AQueue Cancel :: cs' =>
      match up with
      | Some u => SubCancel u :: forwards actual up cs'
      | None => forwards actual up cs'
      end
  | AQueue _ :: cs' => forwards actual up cs'
  end.

(** The upstream subscription after a session. *)
Fixpoint last_upstream (up : option ref) (cs : list adapter_call) : option ref :=
  match cs with
  | [] => up
  | AOnSubscribe s :: cs' => last_upstream (Some s) cs'
  | _ :: cs' => last_upstream up cs'
  end.
End AdapterSession.

Arguments AOnSubscribe {T} s.
Arguments AOnNext {T} t.
Arguments AOnError {T} e.
Arguments AOnComplete {T}.
Arguments AQueue {T} c.

(** *** The fixed answers of the empty subscription *)

Definition empty_answer (fc : FC) {T} (c : qcall T) : outcome (reply T) :=
  match c with
  | Request _ | Cancel | Clear => Normal RUnit
  | RequestFusion _ => Normal (RNum (NONE fc))
  | Offer _ => Throw UnsupportedInFusion
  | Poll => Normal (RVal None)
  | IsEmpty => Normal (RBool true)
  | Size => Normal (RNum (of_Z 0))
  end.


(** What the queue view of the adapter answers, whatever came before. *)
Definition adapter_view (fc : FC) {T} (c : adapter_call T)
    (o : outcome (reply T)) : Prop :=
  match c with
  | AQueue (RequestFusion _) => o = Normal (RNum (NONE fc))
  | AQueue (Offer _) => o = Throw FC_unsupported
  | AQueue Poll => o = Normal (RVal None)
  | AQueue IsEmpty => o = Normal (RBool true)
  | AQueue Size => o = Normal (RNum (of_Z 0))
  | AQueue Clear => o = Normal RUnit
  | _ => True
  end.


(** *** A scalar subscription whose value is gone *)

Section ScalarSpent.
Variables T U : Type.

Definition spent (w : Sc.W T U) : Prop := Sc.once (obj w) = true.

(** If the value was gone before, it is gone after and the subscriber
    was not called in between. *)
Definition stays_spent (w w' : Sc.W T U) : Prop :=
  spent w -> spent w' /\ signals (log w') = signals (log w).
End ScalarSpent.

Arguments spent {T U} w.
Arguments stays_spent {T U} w w'.


(** Two subscribers of a scalar subscription: one that polls from inside
    [onNext], one whose [onNext] throws. *)
Definition polls_in_onNext : signal nat -> body nat unit (qcall nat) :=
  fun sig =>
    match sig with
    | OnNext _ => Invoke Poll (fun _ => Done)
    | _ => Done
    end.

Definition throws_in_onNext : signal nat -> body nat unit (qcall nat) :=
  fun sig =>
    match sig with
    | OnNext _ => Raise (UserError 1)
    | _ => Done
    end.

(** *** The deferred scalar subscription, further *)

Section DeferredFurther.
Variables T U : Type.

(** The request/value track is settled and fusion is not armed: nothing
    can be pushed any more. *)
Definition closed (w : D.W T U) : Prop :=
  settled (D.mState (obj w)) = true /\ D.mFused (obj w) <> NO_VALUE.

Definition stays_closed (w w' : D.W T U) : Prop :=
  closed w -> closed w' /\ signals (log w') = signals (log w).

(** What a subscriber may have received: nothing, a value, or a value and
    then the completion. *)
Definition signal_shape (l : list (signal T)) : Prop :=
  l = [] \/ (exists x, l = [OnNext x]) \/ (exists x, l = [OnNext x; OnComplete]).

Definition shape_inv (w : D.W T U) : Prop :=
  D.mFused (obj w) <> NO_VALUE
  /\ (settled (D.mState (obj w)) = false -> signals (log w) = [])
  /\ signal_shape (signals (log w)).

Definition shape_step (w w' : D.W T U) : Prop :=
  shape_inv w ->
  shape_inv w'
  /\ (settled (D.mState (obj w)) = true ->
      settled (D.mState (obj w')) = true
      /\ signals (log w') = signals (log w)).

(** An entry other than an [onNext] without a value. *)
Definition defined_entry (e : entry T (D.call T)) : Prop :=
  match e with
  | Signal (OnNext None) => False
  | _ => True
  end.

(** Whenever a value is due (waiting for a request, or ready for [poll])
    the field holds one, and no [onNext] went out without one. *)
Definition valued (w : D.W T U) : Prop :=
  (D.mState (obj w) = NO_REQUEST_HAS_VALUE \/ D.mFused (obj w) = HAS_VALUE ->
   D.mValue (obj w) <> None)
  /\ Forall defined_entry (log w).

Definition stays_valued (w w' : D.W T U) : Prop := valued w -> valued w'.

(** How many times [poll()] returned a value, how many times
    [complete] was called, and whether a value is ready for [poll]. *)
Fixpoint polled (l : list (entry T (D.call T))) : nat :=
  match l with
  | [] => 0
  | Returned (RVal (Some _)) :: l' => S (polled l')
  | _ :: l' => polled l'
  end.

Fixpoint completes_called (l : list (entry T (D.call T))) : nat :=
  match l with
  | [] => 0
  | Invoked (D.Complete _) :: l' => S (completes_called l')
  | _ :: l' => completes_called l'
  end.

Definition ready (w : D.W T U) : nat :=
  if FusedState_eqb (D.mFused (obj w)) HAS_VALUE then 1 else 0.

Definition poll_budget (w : D.W T U) : Prop :=
  (polled (log w) + ready w <= completes_called (log w))%nat.

Definition keeps_budget (w w' : D.W T U) : Prop :=
  poll_budget w -> poll_budget w'.
End DeferredFurther.

Arguments closed {T U} w.
Arguments stays_closed {T U} w w'.
Arguments signal_shape {T} l.
Arguments shape_inv {T U} w.
Arguments shape_step {T U} w w'.
Arguments defined_entry {T} e.
Arguments valued {T U} w.
Arguments stays_valued {T U} w w'.
Arguments polled {T} l.
Arguments completes_called {T} l.
Arguments ready {T U} w.
Arguments poll_budget {T U} w.
Arguments keeps_budget {T U} w w'.

(* ================================================================== *)
(** * Properties *)


(* ------------------------------------------------------------------ *)
(** ** Numbers and references *)

Lemma num_gt0_not_le0 n : num_gt0 n = true -> num_le0 n = false.
Proof.
  destruct n as [| | |q]; simpl; try discriminate; auto.
  intros H. apply Z.ltb_lt in H. apply Z.leb_gt. exact H.
Qed.

Lemma ref_eqb_eq a b : ref_eqb a b = true <-> a = b.
Proof.
  destruct a, b; simpl; split; intros H; try discriminate; auto.
  - apply Nat.eqb_eq in H. now subst.
  - inversion H. apply Nat.eqb_refl.
Qed.

Lemma ref_eqb_neq a b : ref_eqb a b = false <-> a <> b.
Proof.
  split.
  - intros H E. apply ref_eqb_eq in E. congruence.
  - intros H. destruct (ref_eqb a b) eqn:E; auto.
    apply ref_eqb_eq in E. contradiction.
Qed.

(* ------------------------------------------------------------------ *)
(** ** [SH.validSubscription] *)

(** C7.  [validSubscription(current, incoming)], when [incoming.cancel()]
    returns: with [current] the cancelled sentinel it cancels [incoming]
    and returns false; with any other subscription as [current] it
    cancels [incoming] and throws "Subscription already set!"; with
    [current] absent it returns true and calls nothing.  With [incoming]
    absent it throws "s is null" and calls nothing. *)
Theorem validSubscription_trichotomy :
  forall (T : Type) (answer : environment T) (h : list (ext_call T))
         (incoming : ref),
    answer h (SubCancel incoming) = Normal tt ->
    SH.validSubscription answer (Some SH.CANCELLED) (Some incoming) h
      = (Normal false, h ++ [SubCancel incoming])
    /\ (forall current, current <> SH.CANCELLED ->
          SH.validSubscription answer (Some current) (Some incoming) h
            = (Throw AlreadySet, h ++ [SubCancel incoming]))
    /\ SH.validSubscription answer None (Some incoming) h = (Normal true, h)
    /\ (forall current,
          SH.validSubscription answer current None h
            = (Throw NullSubscription, h)).
Proof.
  intros T answer h incoming Hret.
  unfold SH.validSubscription, bind, extern, throw, ret.
  rewrite Hret. repeat split.
  intros current Hc. apply ref_eqb_neq in Hc. now rewrite Hc.
Qed.

Lemma validSubscription_trichotomy_witness :
  SH.validSubscription (@all_return nat) (Some SH.CANCELLED) (Some (Obj 1)) []
    = (Normal false, [SubCancel (Obj 1)]).
Proof.
  apply (validSubscription_trichotomy (@all_return nat) [] (Obj 1)).
  reflexivity.
Defined.

(* ------------------------------------------------------------------ *)
(** ** [SuppressFusionSubscriber] *)

Lemma adapter_remembers :
  forall (T : Type) (answer : environment T) (this up : ref) (w : Ad.W T),
    Ad.s (fst (snd (Ad.onSubscribe answer this up w))) = Some up.
Proof.
  intros. unfold Ad.onSubscribe, Ad.outside, Ad.field, bind, extern. simpl.
  reflexivity.
Qed.

(** C8.  Once [onSubscribe(up)] has handed the adapter its upstream
    subscription: [requestFusion(mode)] returns the no-fusion constant for
    every mode and calls nothing; [request(n)] makes exactly one call,
    [up.request(n)], and [cancel()] exactly one call, [up.cancel()], each
    ending the way that call ends. *)
Theorem adapter_suppresses_fusion_and_forwards :
  forall (fc : FC) (T : Type) (answer : environment T) (this up : ref)
         (w0 : Ad.W T) (mode n : number),
    let w := snd (Ad.onSubscribe answer this up w0) in
    Ad.requestFusion fc mode w = (Normal (NONE fc), w)
    /\ Ad.request answer n w
         = (answer (snd w) (SubRequest up n),
            (fst w, snd w ++ [SubRequest up n]))
    /\ Ad.cancel answer w
         = (answer (snd w) (SubCancel up),
            (fst w, snd w ++ [SubCancel up])).
Proof.
  intros fc T answer this up w0 mode n w.
  split; [reflexivity | split].
  - unfold Ad.request, Ad.field, bind.
    unfold w at 1. rewrite adapter_remembers. reflexivity.
  - unfold Ad.cancel, Ad.field, bind.
    unfold w at 1. rewrite adapter_remembers. reflexivity.
Qed.

(* ------------------------------------------------------------------ *)
(** ** The machine *)

Section MachineFacts.
Variables T F U C : Type.
Variable react : signal T -> body T U C.

Lemma signals_app (l1 l2 : list (entry T C)) :
  signals (l1 ++ l2) = signals l1 ++ signals l2.
Proof.
  induction l1 as [|e l1 IH]; simpl; auto.
  destruct e; simpl; now rewrite IH.
Qed.

(** A quiet callback returns and touches neither the object nor the
    log. *)
Lemma run_body_quiet (invoke : C -> M (world T F U C) (reply T)) b :
  quiet b ->
  forall w, exists u,
    run_body invoke b w = (Normal tt, World (obj w) u (log w)).
Proof.
  induction 1 as [|k _ IH|u k _ IH]; intros w; simpl.
  - exists (sub w). now destruct w.
  - apply IH.
  - destruct (IH (World (obj w) u (log w))) as [u' E]. exists u'. exact E.
Qed.

Lemma deliver_quiet (invoke : C -> M (world T F U C) (reply T)) sig :
  quiet (react sig) ->
  forall w, exists u,
    deliver react invoke sig w
    = (Normal tt, World (obj w) u (log w ++ [Signal sig])).
Proof.
  intros Hq w. unfold deliver, bind, emit.
  destruct (run_body_quiet invoke Hq
              (World (obj w) (sub w) (log w ++ [Signal sig]))) as [u E].
  exists u. exact E.
Qed.
(** A relation between worlds that holds across every call the callbacks
    may make holds across a whole callback. *)
Section Across.
Variable R : world T F U C -> world T F U C -> Prop.
Variable ok : C -> Prop.
Variable invoke : C -> M (world T F U C) (reply T).
Hypothesis R_refl : forall w, R w w.
Hypothesis R_trans : forall a b c, R a b -> R b c -> R a c.
Hypothesis R_sub : forall w u, R w (World (obj w) u (log w)).
Hypothesis R_invoke : forall c w o w', ok c -> invoke c w = (o, w') -> R w w'.

Lemma run_body_across b :
  calls_only ok b ->
  forall w o w', run_body invoke b w = (o, w') -> R w w'.
Proof.
  induction 1 as [|e|k _ IH|u k _ IH|c k Hc _ IH]; intros w o w' E; simpl in E.
  - inversion E; subst. apply R_refl.
  - inversion E; subst. apply R_refl.
  - eapply IH; eauto.
  - eapply R_trans; [apply (R_sub w u)|]. eapply IH; eauto.
  - destruct (invoke c w) as [[r|e|] w1] eqn:Ei.
    + eapply R_trans; [eapply R_invoke; eauto|]. eapply IH; eauto.
    + eapply R_trans; [eapply R_invoke; eauto|]. eapply IH; eauto.
    + inversion E; subst. eapply R_invoke; eauto.
Qed.
End Across.

(** The same for the methods.  [R] has to hold from the entry of a
    method to its return (with the entry and the return logged), given
    that it holds from the moment a callback is entered (logged) to the
    moment it ends. *)
Section ExecAcross.
Variable method : (signal T -> M (world T F U C) unit) -> C -> M (world T F U C) (reply T).
Variable R : world T F U C -> world T F U C -> Prop.
Variable ok : C -> Prop.

Hypothesis R_refl : forall w, R w w.
Hypothesis R_trans : forall a b c, R a b -> R b c -> R a c.
Hypothesis R_sub : forall w u, R w (World (obj w) u (log w)).
Hypothesis R_method :
  forall mA : signal T -> M (world T F U C) unit,
    (forall sig w o w', mA sig w = (o, w') -> R (logged w (Signal sig)) w') ->
    forall c w o w',
      ok c -> method mA c (logged w (Invoked c)) = (o, w') ->
      R w (finish o w').
Hypothesis react_ok : forall sig, calls_only ok (react sig).

Lemma exec_across fuel :
  forall c w o w', ok c -> exec react method fuel c w = (o, w') -> R w w'.
Proof.
  induction fuel as [|fuel IH]; intros c w o w' Hc E.
  - inversion E; subst. apply R_refl.
  - cbn [exec] in E. unfold bind at 1, emit at 1 in E.
    fold (logged w (Invoked c)) in E.
    unfold bind at 1 in E.
    destruct (method (deliver react (exec react method fuel)) c
                (logged w (Invoked c))) as [o1 w1] eqn:Em.
    assert (Hfin : R w (finish o1 w1)).
    { eapply R_method; [|exact Hc|exact Em].
      intros sig w2 o2 w2' Ed. unfold deliver, bind, emit in Ed.
      fold (logged w2 (Signal sig)) in Ed.
      eapply run_body_across; eauto. }
    destruct o1 as [r|e|]; simpl in Hfin; unfold bind, emit, ret in E;
      inversion E; subst; exact Hfin.
Qed.

Lemma deliver_across fuel sig w o w' :
  deliver react (exec react method fuel) sig w = (o, w') ->
  R (logged w (Signal sig)) w'.
Proof.
  intros Ed. unfold deliver, bind, emit in Ed.
  fold (logged w (Signal sig)) in Ed.
  eapply run_body_across; eauto using exec_across.
Qed.
End ExecAcross.

End MachineFacts.

(* ------------------------------------------------------------------ *)
(** ** [EmptySubscription] *)

Section EmptyFacts.
Variable fc : FC.
Variables T U : Type.
Variable react : signal T -> body T U (qcall T).

Abbreviation exec_empty := (exec react (Em.method fc)).

(** No method of the empty subscription reaches the subscriber. *)
Lemma empty_exec_silent fuel c (w : Em.W T U) :
  exists o l,
    exec_empty (S fuel) c w = (o, World (obj w) (sub w) (log w ++ l))
    /\ signals l = [] /\ o <> OutOfFuel.
Proof.
  destruct c; simpl; unfold bind, emit; simpl;
    eexists; eexists; (split; [ rewrite <- ?app_assoc; reflexivity
                              | split; [reflexivity | discriminate] ]).
Qed.

Lemma empty_run_body_calm fuel b :
  calm b ->
  forall w : Em.W T U, exists w',
    run_body (exec_empty (S fuel)) b w = (Normal tt, w')
    /\ signals (log w') = signals (log w).
Proof.
  induction 1 as [|k _ IH|u k _ IH|c k _ IH]; intros w.
  - exists w. split; reflexivity.
  - simpl. apply IH.
  - simpl. destruct (IH (World (obj w) u (log w))) as (w' & E & Hs).
    exists w'. split; [exact E | exact Hs].
  - cbn [run_body].
    destruct (empty_exec_silent fuel c w) as (o & l & E & Hl & Ho).
    rewrite E.
    assert (Hs : signals (log (World (obj w) (sub w) (log w ++ l)))
                 = signals (log w)).
    { simpl. rewrite signals_app, Hl. apply app_nil_r. }
    destruct o as [r|e|]; [ | | contradiction].
    + destruct (IH (Gave r) (World (obj w) (sub w) (log w ++ l)))
        as (w' & E' & Hs').
      exists w'. split; [exact E' | congruence].
    + destruct (IH (Caught e) (World (obj w) (sub w) (log w ++ l)))
        as (w' & E' & Hs').
      exists w'. split; [exact E' | congruence].
Qed.

Lemma empty_deliver_calm fuel sig :
  calm (react sig) ->
  forall w : Em.W T U, exists w',
    deliver react (exec_empty (S fuel)) sig w = (Normal tt, w')
    /\ signals (log w') = signals (log w) ++ [sig].
Proof.
  intros Hc w. unfold deliver, bind, emit.
  destruct (empty_run_body_calm fuel Hc
              (World (obj w) (sub w) (log w ++ [Signal sig])))
    as (w' & E & Hs).
  exists w'. split; [exact E|].
  rewrite Hs. simpl. now rewrite signals_app.
Qed.

(** C9.  For a subscriber whose callbacks return: the static
    [complete(subscriber)] calls [onSubscribe] with the singleton, then
    [onComplete], and nothing else; the static [error(subscriber, e)]
    calls [onSubscribe] with the singleton, then [onError(e)], and
    nothing else. *)
Theorem empty_complete_and_error_signals :
  forall (fuel : nat) (e : Error) (w : Em.W T U),
    (forall sig, calm (react sig)) ->
    (exists w',
       Em.complete (deliver react (exec_empty (S fuel))) w = (Normal tt, w')
       /\ signals (log w')
          = signals (log w) ++ [OnSubscribe Em.INSTANCE; OnComplete])
    /\
    (exists w',
       Em.error (deliver react (exec_empty (S fuel))) e w = (Normal tt, w')
       /\ signals (log w')
          = signals (log w) ++ [OnSubscribe Em.INSTANCE; OnError e]).
Proof.
  intros fuel e w Hc. split.
  - unfold Em.complete, bind.
    destruct (empty_deliver_calm fuel (Hc (OnSubscribe Em.INSTANCE)) w)
      as (w1 & E1 & H1).
    rewrite E1.
    destruct (empty_deliver_calm fuel (Hc OnComplete) w1) as (w2 & E2 & H2).
    exists w2. split; [exact E2|].
    rewrite H2, H1, <- app_assoc. reflexivity.
  - unfold Em.error, bind.
    destruct (empty_deliver_calm fuel (Hc (OnSubscribe Em.INSTANCE)) w)
      as (w1 & E1 & H1).
    rewrite E1.
    destruct (empty_deliver_calm fuel (Hc (OnError e)) w1) as (w2 & E2 & H2).
    exists w2. split; [exact E2|].
    rewrite H2, H1, <- app_assoc. reflexivity.
Qed.
End EmptyFacts.

Lemma empty_complete_and_error_signals_witness :
  let react : signal nat -> body nat unit (qcall nat) :=
    fun sig => match sig with
               | OnSubscribe _ => Invoke (Request (of_Z 1)) (fun _ => Done)
               | _ => Done
               end in
  let w : Em.W nat unit := World tt tt [] in
  (forall sig, calm (react sig))
  /\ (exists w',
        Em.complete (deliver react (exec react (Em.method fc_flow) 1)) w
        = (Normal tt, w')
        /\ signals (log w') = [OnSubscribe Em.INSTANCE; OnComplete]).
Proof.
  intros react w.
  assert (Hc : forall sig, calm (react sig)).
  { intros sig. destruct sig; simpl; repeat constructor. }
  split; [exact Hc|].
  exact (proj1 (empty_complete_and_error_signals fc_flow react 0
                  (UserError 1) w Hc)).
Defined.

(* ------------------------------------------------------------------ *)
(** ** [DeferrendScalarSubscription] *)

Arguments deliver : simpl never.

Ltac run_methods :=
  cbn [run exec];
  unfold D.method, D.complete, D.request, D.cancel, D.requestFusion,
    D.poll, D.isEmpty, D.size, D.clear, D.offer,
    D.set_mValue, D.set_mState, D.set_mFused, SH.validRequest,
    bind, emit, gets, modify, ret, throw;
  simpl.

Ltac quiet_callback Hq :=
  match goal with
  | |- context [deliver ?react ?i ?sig ?w] =>
      let u := fresh "u" in
      let E := fresh "E" in
      destruct (deliver_quiet react i sig (Hq sig) w) as [u E];
      simpl in E; rewrite E; clear E; simpl
  end.

Section DeferredFacts.
Variable fc : FC.
Variables T U : Type.
Variable react : signal T -> body T U (D.call T).

Abbreviation run_deferred := (run react (D.method fc)).

Lemma run_app fuel (cs1 cs2 : list (D.call T)) w :
  run_deferred fuel (cs1 ++ cs2) w
  = (fst (run_deferred fuel cs1 w)
       ++ fst (run_deferred fuel cs2 (snd (run_deferred fuel cs1 w))),
     snd (run_deferred fuel cs2 (snd (run_deferred fuel cs1 w)))).
Proof.
  revert w. induction cs1 as [|c cs1 IH]; intros w; simpl.
  - now destruct (run_deferred fuel cs2 w).
  - destruct (exec react (D.method fc) fuel c w) as [o w1].
    rewrite IH.
    destruct (run_deferred fuel cs1 w1) as [os1 w2]. simpl.
    destruct (run_deferred fuel cs2 w2) as [os2 w3]. reflexivity.
Qed.

(** Polling while no value is ready gives [null] and changes no field. *)
Lemma poll_empty fuel (w : D.W T U) :
  D.mFused (obj w) <> HAS_VALUE ->
  exec react (D.method fc) (S fuel) (D.Queue Poll) w
  = (Normal (RVal None),
     World (obj w) (sub w)
       (log w ++ [Invoked (D.Queue Poll); Returned (RVal None)])).
Proof.
  intros Hf. run_methods.
  destruct (D.mFused (obj w)); try contradiction; simpl;
    now rewrite <- app_assoc.
Qed.

Lemma polls_empty fuel k : forall w : D.W T U,
  D.mFused (obj w) <> HAS_VALUE ->
  exists l,
    run_deferred (S fuel) (repeat (D.Queue Poll) k) w
    = (repeat (Normal (RVal None)) k, World (obj w) (sub w) (log w ++ l))
    /\ signals l = [].
Proof.
  induction k as [|k IH]; intros w Hf.
  - exists []. simpl. rewrite app_nil_r. now destruct w.
  - cbn [repeat run]. rewrite (poll_empty fuel w Hf).
    match goal with
    | |- context [run_deferred (S fuel) _ ?w1] =>
        destruct (IH w1) as (l & E & Hl); [exact Hf|]
    end.
    rewrite E. simpl.
    eexists. split; [rewrite <- app_assoc; reflexivity|].
    simpl. exact Hl.
Qed.

Lemma grants_test mode :
  grants fc mode ->
  negb (band mode (ASYNC fc) =? 0) && (band mode (BOUNDARY fc) =? 0) = true.
Proof.
  intros [Ha Hb]. apply Z.eqb_neq in Ha. apply Z.eqb_eq in Hb.
  now rewrite Ha, Hb.
Qed.

Lemma not_grants_test mode :
  ~ grants fc mode ->
  negb (band mode (ASYNC fc) =? 0) && (band mode (BOUNDARY fc) =? 0) = false.
Proof.
  intros Hn. unfold grants in Hn.
  destruct (band mode (ASYNC fc) =? 0) eqn:Ea; simpl; auto.
  destruct (band mode (BOUNDARY fc) =? 0) eqn:Eb; simpl; auto.
  exfalso. apply Hn. split.
  - now apply Z.eqb_neq.
  - now apply Z.eqb_eq.
Qed.

Lemma requestFusion_granted fuel (w : D.W T U) mode :
  grants fc mode ->
  exec react (D.method fc) (S fuel) (D.Queue (RequestFusion mode)) w
  = (Normal (RNum (ASYNC fc)),
     World (D.Fields (D.mValue (obj w)) (D.mState (obj w)) NO_VALUE) (sub w)
       (log w ++ [Invoked (D.Queue (RequestFusion mode));
                  Returned (RNum (ASYNC fc))])).
Proof.
  intros Hg. apply grants_test in Hg. run_methods.
  rewrite Hg. simpl. now rewrite <- app_assoc.
Qed.

(** [complete(v)] on an armed, empty fusion track. *)
Lemma complete_fused_quiet fuel v (w : D.W T U) :
  (forall sig, quiet (react sig)) ->
  D.mFused (obj w) = NO_VALUE ->
  exists u,
    exec react (D.method fc) (S fuel) (D.Complete v) w
    = (Normal RUnit,
       World (D.Fields (Some v) (D.mState (obj w)) HAS_VALUE) u
         (log w ++ [Invoked (D.Complete v); Signal (OnNext (Some v));
                    Signal OnComplete; Returned RUnit])).
Proof.
  intros Hq Hf. run_methods. rewrite Hf. simpl.
  quiet_callback Hq. quiet_callback Hq.
  eexists. rewrite <- !app_assoc. reflexivity.
Qed.

(** [poll()] when the value is ready. *)
Lemma poll_ready fuel (w : D.W T U) :
  D.mFused (obj w) = HAS_VALUE ->
  exec react (D.method fc) (S fuel) (D.Queue Poll) w
  = (Normal (RVal (D.mValue (obj w))),
     World (D.Fields (D.mValue (obj w)) (D.mState (obj w)) COMPLETE) (sub w)
       (log w ++ [Invoked (D.Queue Poll);
                  Returned (RVal (D.mValue (obj w)))])).
Proof.
  intros Hf. run_methods. rewrite Hf. simpl. now rewrite <- app_assoc.
Qed.

(** C5.  [requestFusion(mode)] returns the async constant exactly when
    [mode] has the async bit and not the boundary bit, and then arms the
    fusion track; in every other case it returns the no-fusion constant
    and changes nothing, so a track that was not armed stays so. *)
Theorem deferred_requestFusion_grants_iff :
  forall (mode : number) (w : D.W T U),
    ASYNC fc <> NONE fc ->
    exists r w',
      D.requestFusion fc mode w = (Normal r, w')
      /\ (r = ASYNC fc <-> grants fc mode)
      /\ (grants fc mode ->
            w' = World (D.Fields (D.mValue (obj w)) (D.mState (obj w)) NO_VALUE)
                       (sub w) (log w))
      /\ (~ grants fc mode -> r = NONE fc /\ w' = w).
Proof.
  intros mode w Hne. unfold D.requestFusion.
  destruct (negb (band mode (ASYNC fc) =? 0) && (band mode (BOUNDARY fc) =? 0))
    eqn:E.
  - assert (Hg : grants fc mode).
    { apply andb_true_iff in E. destruct E as [Ea Eb].
      apply negb_true_iff in Ea. split.
      - now apply Z.eqb_neq.
      - now apply Z.eqb_eq. }
    eexists. eexists. split; [reflexivity|].
    split; [tauto|]. split; [reflexivity | tauto].
  - assert (Hg : ~ grants fc mode).
    { intros Hg. apply grants_test in Hg. congruence. }
    exists (NONE fc), w. split; [reflexivity|].
    split; [|split]; [| tauto | auto].
    split; [congruence | tauto].
Qed.

(** The armed track, for constants under which some mode is granted
    (those of the [flow] module grant none, see [flow_grants_nothing]).
    Async fusion armed on a fresh instance, the
    callbacks of the subscriber calling nothing: every [poll()] before
    [complete(v)] returns [null]; [complete(v)] pushes [onNext(v)] then
    [onComplete()] to the subscriber; the first [poll()] after it returns
    [v] and every later one [null]. *)
Theorem deferred_async_fused_polls :
  forall (fuel : nat) (mode : number) (v : T) (u : U) (before after : nat),
    (forall sig, quiet (react sig)) ->
    grants fc mode ->
    exists w,
      run_deferred (S fuel)
        (D.Queue (RequestFusion mode) :: repeat (D.Queue Poll) before
           ++ D.Complete v :: D.Queue Poll :: repeat (D.Queue Poll) after)
        (D.fresh u)
      = (Normal (RNum (ASYNC fc)) :: repeat (Normal (RVal None)) before
           ++ Normal RUnit :: Normal (RVal (Some v))
           :: repeat (Normal (RVal None)) after,
         w)
      /\ signals (log w) = [OnNext (Some v); OnComplete].
Proof.
  intros fuel mode v u before after Hq Hg.
  cbn [run]. rewrite (requestFusion_granted fuel (D.fresh u) Hg).
  rewrite run_app.
  match goal with
  | |- context [run_deferred (S fuel) (repeat _ before) ?w1] =>
      destruct (polls_empty fuel before w1) as (l1 & E1 & H1);
        [simpl; discriminate|]; rewrite E1
  end.
  cbn [fst snd run].
  match goal with
  | |- context [exec react (D.method fc) (S fuel) (D.Complete v) ?w1] =>
      destruct (complete_fused_quiet fuel v w1 Hq eq_refl) as (u1 & E);
        rewrite E; clear E
  end.
  rewrite poll_ready by reflexivity.
  match goal with
  | |- context [run_deferred (S fuel) (repeat _ after) ?w1] =>
      destruct (polls_empty fuel after w1) as (l2 & E2 & H2);
        [simpl; discriminate|]; rewrite E2
  end.
  eexists. split; [reflexivity|].
  simpl. repeat (rewrite signals_app; simpl).
  rewrite H1, H2. reflexivity.
Qed.

(** *** A value stored before fusion is armed *)

Lemma method_stays_not_ready (mA : signal T -> M (D.W T U) unit) :
  (forall sig w o w', mA sig w = (o, w') -> stays_not_ready w w') ->
  forall c w o w',
    not_complete c -> D.method fc mA c w = (o, w') -> stays_not_ready w w'.
Proof.
  intros HmA c w o w' Hc E Hw. unfold stays_not_ready, not_ready in *.
  destruct c as [t|[n| |mode|t| | | |]]; [contradiction|..];
    revert E; run_methods.
  - (* request *)
    destruct (num_le0 n); simpl; [intros E; inversion E; subst; auto|].
    destruct (D.mState (obj w)) eqn:Es; simpl;
      try (intros E; inversion E; subst; simpl; auto; fail).
    destruct (mA (OnNext _) _) as [[[]|e|] w1] eqn:E1; simpl;
      pose proof (HmA _ _ _ _ E1 Hw) as H1;
      try (intros E; inversion E; subst; auto; fail).
    destruct (D.mState (obj w1)); simpl;
      try (intros E; inversion E; subst; auto; fail);
      destruct (mA OnComplete w1) as [[[]|e|] w2] eqn:E2; simpl;
      pose proof (HmA _ _ _ _ E2 H1) as H2;
      intros E; inversion E; subst; auto.
  - (* cancel *)
    intros E; inversion E; subst; simpl. discriminate.
  - (* requestFusion *)
    destruct (_ && _); simpl; intros E; inversion E; subst; simpl; auto.
    discriminate.
  - (* offer *)
    intros E; inversion E; subst; auto.
  - (* poll *)
    destruct (D.mFused (obj w)) eqn:Ef; simpl; intros E; inversion E; subst;
      simpl; try discriminate; rewrite ?Ef; auto.
  - (* isEmpty *)
    intros E; inversion E; subst; auto.
  - (* size *)
    intros E; inversion E; subst; auto.
  - (* clear *)
    intros E; inversion E; subst; simpl. discriminate.
Qed.

Lemma exec_stays_not_ready fuel c (w : D.W T U) o w' :
  (forall sig, calls_only not_complete (react sig)) ->
  not_complete c ->
  exec react (D.method fc) fuel c w = (o, w') ->
  stays_not_ready w w'.
Proof.
  intros Hr Hc E.
  eapply (@exec_across _ _ _ _ react (D.method fc) stays_not_ready
            not_complete); eauto; unfold stays_not_ready; auto.
  clear. intros mA HmA c w o w' Hc E Hw.
  assert (H : stays_not_ready (logged w (Invoked c)) w').
  { eapply method_stays_not_ready; eauto. }
  specialize (H Hw). destruct o; exact H.
Qed.

Lemma isEmpty_not_ready fuel (w : D.W T U) :
  not_ready w ->
  fst (exec react (D.method fc) (S fuel) (D.Queue IsEmpty) w)
  = Normal (RBool true).
Proof.
  unfold not_ready. intros Hw. run_methods.
  destruct (D.mFused (obj w)); try contradiction; reflexivity.
Qed.

Lemma run_answers_empty fuel cs : forall w : D.W T U,
  (forall sig, calls_only not_complete (react sig)) ->
  Forall not_complete cs ->
  not_ready w ->
  Forall2 answers_empty cs (fst (run_deferred (S fuel) cs w)).
Proof.
  induction cs as [|c cs IH]; intros w Hr Hcs Hw; cbn [run].
  - constructor.
  - inversion Hcs as [|c' cs' Hc Hcs']; subst.
    destruct (exec react (D.method fc) (S fuel) c w) as [o w1] eqn:E.
    pose proof (exec_stays_not_ready _ _ Hr Hc E Hw) as Hw1.
    specialize (IH w1 Hr Hcs' Hw1).
    destruct (run_deferred (S fuel) cs w1) as [os w2]. cbn [fst] in *.
    constructor; [|exact IH].
    split; intros ->.
    + rewrite (poll_empty fuel w Hw) in E. now inversion E.
    + pose proof (isEmpty_not_ready fuel Hw) as Hi.
      rewrite E in Hi. exact Hi.
Qed.

(** [complete(v)] on the ordinary track before any request. *)
Lemma complete_stores fuel v (w : D.W T U) :
  D.mFused (obj w) <> NO_VALUE ->
  D.mState (obj w) = NO_REQUEST_NO_VALUE ->
  exec react (D.method fc) (S fuel) (D.Complete v) w
  = (Normal RUnit,
     World (D.Fields (Some v) NO_REQUEST_HAS_VALUE (D.mFused (obj w))) (sub w)
       (log w ++ [Invoked (D.Complete v); Returned RUnit])).
Proof.
  intros Hf Hs. run_methods.
  destruct (D.mFused (obj w)) eqn:Ef; try contradiction; simpl;
    rewrite Hs; simpl; now rewrite <- app_assoc, ?Ef.
Qed.

(** [request(n)] when a value waits on the ordinary track. *)
Lemma request_waiting_quiet fuel n (w : D.W T U) :
  (forall sig, quiet (react sig)) ->
  num_gt0 n = true ->
  D.mState (obj w) = NO_REQUEST_HAS_VALUE ->
  exists u,
    exec react (D.method fc) (S fuel) (D.Queue (Request n)) w
    = (Normal RUnit,
       World (D.Fields (D.mValue (obj w)) HAS_REQUEST_HAS_VALUE
                (D.mFused (obj w))) u
         (log w ++ [Invoked (D.Queue (Request n));
                    Signal (OnNext (D.mValue (obj w)));
                    Signal OnComplete; Returned RUnit])).
Proof.
  intros Hq Hn Hs. apply num_gt0_not_le0 in Hn.
  run_methods. rewrite Hn. simpl. rewrite Hs. simpl.
  quiet_callback Hq. quiet_callback Hq.
  eexists. rewrite <- !app_assoc. reflexivity.
Qed.

(** A value that arrives before fusion is armed, for constants under
    which some mode is granted.  [complete(v)] on a fresh instance and then
    a granted [requestFusion]: the instance holds [v] and the subscriber
    has received nothing; from then on, whatever is called short of a
    second [complete] (by the caller or by the callbacks), every [poll()]
    returns [null] and every [isEmpty()] returns true.  The value is not
    lost to the push side: with callbacks that call nothing, a
    [request(n)], [n > 0], made next delivers [onNext(v)] then
    [onComplete()]. *)
Theorem deferred_value_before_fusion :
  forall (fuel : nat) (v : T) (mode n : number) (u : U) (cs : list (D.call T)),
    grants fc mode ->
    (forall sig, calls_only not_complete (react sig)) ->
    Forall not_complete cs ->
    num_gt0 n = true ->
    exists w0,
      run_deferred (S fuel) [D.Complete v; D.Queue (RequestFusion mode)]
        (D.fresh u)
      = ([Normal RUnit; Normal (RNum (ASYNC fc))], w0)
      /\ obj w0 = D.Fields (Some v) NO_REQUEST_HAS_VALUE NO_VALUE
      /\ signals (log w0) = []
      /\ Forall2 answers_empty cs (fst (run_deferred (S fuel) cs w0))
      /\ ((forall sig, quiet (react sig)) ->
          exists w1,
            exec react (D.method fc) (S fuel) (D.Queue (Request n)) w0
            = (Normal RUnit, w1)
            /\ signals (log w1) = [OnNext (Some v); OnComplete]).
Proof.
  intros fuel v mode n u cs Hg Hr Hcs Hn.
  cbn [run].
  rewrite complete_stores by (simpl; solve [discriminate | reflexivity]).
  rewrite requestFusion_granted by exact Hg.
  eexists. split; [reflexivity|].
  split; [reflexivity|]. split; [reflexivity|]. split.
  - apply run_answers_empty; auto. unfold not_ready. simpl. discriminate.
  - intros Hq.
    match goal with
    | |- context [exec _ _ _ _ ?w0] =>
        destruct (request_waiting_quiet fuel n w0 Hq Hn eq_refl) as [u1 E]
    end.
    eexists. split; [exact E|]. reflexivity.
Qed.
End DeferredFacts.

(** *** One value, one request *)

Ltac settle_call E :=
  eexists; eexists; (split; [reflexivity|]); simpl;
  repeat (rewrite signals_app; simpl); rewrite ?app_nil_r, ?E;
  repeat split; auto; discriminate.

Section DeferredPush.
Variable fc : FC.
Variables T U : Type.
Variable react : signal T -> body T U (D.call T).
Hypothesis react_calm : forall sig, calm (react sig).
Hypothesis react_harmless : forall sig, calls_only (harmless fc) (react sig).

(** In that state a harmless call ends without reaching the subscriber
    and leaves the object in that state. *)
Lemma exec_delivered fuel c w :
  harmless fc c -> delivered w ->
  exists o w',
    exec react (D.method fc) (S fuel) c w = (o, w')
    /\ o <> OutOfFuel /\ delivered w'
    /\ signals (log w') = signals (log w).
Proof.
  intros [Hnc Hu] [Hs Hf]. unfold delivered.
  destruct c as [t|[n| |mode|t| | | |]]; run_methods.
  - destruct (D.mFused (obj w)) eqn:Ef; try contradiction; simpl;
      rewrite Hs; simpl; settle_call Ef.
  - destruct (num_le0 n); simpl; rewrite ?Hs; simpl; settle_call Hs.
  - contradiction.
  - simpl in Hu. rewrite (not_grants_test Hu). simpl. settle_call Hs.
  - settle_call Hs.
  - destruct (D.mFused (obj w)) eqn:Ef; try contradiction; simpl;
      settle_call Ef.
  - settle_call Hs.
  - settle_call Hs.
  - settle_call Hs.
Qed.

Lemma run_body_delivered fuel b :
  calm b -> calls_only (harmless fc) b ->
  forall w, delivered w ->
  exists w',
    run_body (exec react (D.method fc) (S fuel)) b w = (Normal tt, w')
    /\ delivered w' /\ signals (log w') = signals (log w).
Proof.
  induction 1 as [|k _ IH|u k _ IH|c k _ IH]; intros Hh w Hw;
    inversion Hh as [| |k' Hk|u' k' Hk|c' k' Hc Hk]; subst.
  - exists w. repeat split; auto; apply Hw.
  - cbn [run_body]. apply IH; auto.
  - cbn [run_body]. destruct (IH Hk (World (obj w) u (log w)) Hw)
      as (w' & E & Hd & Hsig).
    exists w'. auto.
  - cbn [run_body].
    destruct (exec_delivered fuel Hc Hw) as (o & w1 & E & Ho & Hd & Hsig).
    rewrite E.
    destruct o as [r|e|]; [ | | contradiction].
    + destruct (IH (Gave r) (Hk _) w1 Hd) as (w' & E' & Hd' & Hsig').
      exists w'. repeat split; auto; try apply Hd'. congruence.
    + destruct (IH (Caught e) (Hk _) w1 Hd) as (w' & E' & Hd' & Hsig').
      exists w'. repeat split; auto; try apply Hd'. congruence.
Qed.

Lemma deliver_delivered fuel sig w :
  delivered w ->
  exists w',
    deliver react (exec react (D.method fc) (S fuel)) sig w = (Normal tt, w')
    /\ delivered w' /\ signals (log w') = signals (log w) ++ [sig].
Proof.
  intros Hw. unfold deliver, bind, emit.
  destruct (@run_body_delivered fuel (react sig) (react_calm sig)
              (react_harmless sig)
              (World (obj w) (sub w) (log w ++ [Signal sig])) Hw)
    as (w' & E & Hd & Hsig).
  exists w'. repeat split; auto; try apply Hd.
  rewrite Hsig. simpl. now rewrite signals_app.
Qed.

Lemma deliver_delivered_at f1 fuel sig w :
  f1 = S fuel ->
  delivered w ->
  exists w',
    deliver react (exec react (D.method fc) f1) sig w = (Normal tt, w')
    /\ delivered w' /\ signals (log w') = signals (log w) ++ [sig].
Proof. intros ->. apply deliver_delivered. Qed.

Ltac enter_method :=
  cbn [exec];
  unfold D.method at 1, D.complete, D.request, SH.validRequest,
    D.set_mValue, D.set_mState, D.set_mFused,
    bind, emit, gets, modify, ret, throw;
  simpl.

Ltac callback Ef1 w1 Hd1 Hsig1 :=
  match goal with
  | |- context [deliver _ _ ?sig ?w] =>
      let E := fresh "E" in
      let Hd := fresh "Hd" in
      assert (Hd : delivered w)
        by first [ assumption
                 | split; simpl;
                   solve [reflexivity | assumption | congruence] ];
      destruct (@deliver_delivered_at _ _ sig w Ef1 Hd)
        as (w1 & E & Hd1 & Hsig1);
      clear Hd; rewrite E; clear E; simpl
  end.

(** [request(n)] finding a value that waits. *)
Lemma request_pushes fuel n w :
  num_gt0 n = true ->
  D.mState (obj w) = NO_REQUEST_HAS_VALUE ->
  D.mFused (obj w) <> NO_VALUE ->
  exists w',
    exec react (D.method fc) (S (S fuel)) (D.Queue (Request n)) w
    = (Normal RUnit, w')
    /\ signals (log w')
       = signals (log w) ++ [OnNext (D.mValue (obj w)); OnComplete].
Proof.
  intros Hn Hs Hf. apply num_gt0_not_le0 in Hn.
  remember (S fuel) as f1 eqn:Ef1.
  enter_method. rewrite Hn. simpl. rewrite Hs. simpl.
  callback Ef1 w1 Hd1 Hsig1. rewrite (proj1 Hd1). simpl.
  callback Ef1 w2 Hd2 Hsig2.
  eexists. split; [reflexivity|].
  simpl. rewrite signals_app, Hsig2, Hsig1. simpl.
  rewrite signals_app. simpl. now rewrite app_nil_r, <- !app_assoc.
Qed.

(** [complete(v)] finding a request that waits. *)
Lemma complete_pushes fuel v w :
  D.mState (obj w) = HAS_REQUEST_NO_VALUE ->
  D.mFused (obj w) <> NO_VALUE ->
  exists w',
    exec react (D.method fc) (S (S fuel)) (D.Complete v) w
    = (Normal RUnit, w')
    /\ signals (log w') = signals (log w) ++ [OnNext (Some v); OnComplete].
Proof.
  intros Hs Hf.
  remember (S fuel) as f1 eqn:Ef1.
  enter_method.
  destruct (D.mFused (obj w)) eqn:Ef; try contradiction; simpl;
    rewrite Hs; simpl;
    callback Ef1 w1 Hd1 Hsig1;
    rewrite (proj1 Hd1); simpl;
    callback Ef1 w2 Hd2 Hsig2;
    (eexists; split; [reflexivity|]);
    simpl; rewrite signals_app, Hsig2, Hsig1; simpl;
    rewrite signals_app; simpl; now rewrite app_nil_r, <- !app_assoc.
Qed.

(** [request(n)] before any value. *)
Lemma request_records fuel n w :
  num_gt0 n = true ->
  D.mState (obj w) = NO_REQUEST_NO_VALUE ->
  exec react (D.method fc) (S fuel) (D.Queue (Request n)) w
  = (Normal RUnit,
     World (D.Fields (D.mValue (obj w)) HAS_REQUEST_NO_VALUE
              (D.mFused (obj w))) (sub w)
       (log w ++ [Invoked (D.Queue (Request n)); Returned RUnit])).
Proof.
  intros Hn Hs. apply num_gt0_not_le0 in Hn.
  enter_method. rewrite Hn. simpl. rewrite Hs. simpl.
  now rewrite <- app_assoc.
Qed.

(** C1.  Fusion never negotiated, one [complete(v)] and one [request(n)]
    with [n > 0], in either order, and a subscriber whose callbacks
    return, never cancel and never get fusion granted: both calls return
    and the subscriber receives [onNext(v)] then [onComplete()], and
    nothing else. *)
Theorem deferred_value_and_request_either_order :
  forall (fuel : nat) (v : T) (n : number) (u : U) (cs : list (D.call T)),
    num_gt0 n = true ->
    cs = [D.Complete v; D.Queue (Request n)]
    \/ cs = [D.Queue (Request n); D.Complete v] ->
    exists w,
      run react (D.method fc) (S (S fuel)) cs (D.fresh u)
      = ([Normal RUnit; Normal RUnit], w)
      /\ signals (log w) = [OnNext (Some v); OnComplete].
Proof.
  intros fuel v n u cs Hn [-> | ->]; cbn [run].
  - rewrite complete_stores by (simpl; solve [discriminate | reflexivity]).
    match goal with
    | |- context [exec _ _ _ (D.Queue (Request n)) ?w0] =>
        destruct (@request_pushes fuel n w0 Hn eq_refl) as (w' & E & Hsig);
          [simpl; discriminate|]
    end.
    rewrite E. exists w'. split; [reflexivity|]. exact Hsig.
  - rewrite request_records by (auto; reflexivity).
    match goal with
    | |- context [exec _ _ _ (D.Complete v) ?w0] =>
        destruct (@complete_pushes fuel v w0 eq_refl) as (w' & E & Hsig);
          [simpl; discriminate|]
    end.
    rewrite E. exists w'. split; [reflexivity|]. exact Hsig.
Qed.
End DeferredPush.

(* ------------------------------------------------------------------ *)
(** ** [ScalarSubscription] *)

Ltac run_scalar :=
  cbn [run exec];
  unfold Sc.method, Sc.request, Sc.cancel, Sc.requestFusion,
    Sc.poll, Sc.isEmpty, Sc.size, Sc.clear, Sc.offer,
    Sc.set_once, SH.validRequest,
    bind, emit, gets, modify, ret, throw;
  simpl.

Section ScalarFacts.
Variable fc : FC.
Variables T U : Type.
Variable react : signal T -> body T U (qcall T).

Abbreviation run_scalar_sub := (run react (Sc.method fc)).
Abbreviation exec_scalar := (exec react (Sc.method fc)).

Lemma yields_app (l1 l2 : list (entry T (qcall T))) :
  yields (l1 ++ l2) = (yields l1 + yields l2)%nat.
Proof. induction l1 as [|e l1 IH]; simpl; auto. rewrite IH. lia. Qed.

Lemma scalar_step_refl (w : Sc.W T U) : scalar_step w w.
Proof. left. auto. Qed.

Lemma scalar_step_trans (a b c : Sc.W T U) :
  scalar_step a b -> scalar_step b c -> scalar_step a c.
Proof.
  unfold scalar_step.
  intros [[H1 H2]|(H1 & H2 & H3)] [[H4 H5]|(H4 & H5 & H6)].
  - left. split; congruence.
  - right. repeat split; try congruence; lia.
  - right. repeat split; try congruence; lia.
  - congruence.
Qed.

Lemma scalar_step_spent (a b : Sc.W T U) :
  scalar_step a b -> Sc.once (obj a) = true ->
  Sc.once (obj b) = true /\ yields (log b) = yields (log a).
Proof.
  intros [[H1 H2]|(H1 & H2 & H3)] Ha; [split|]; congruence.
Qed.

Lemma scalar_method_step (mA : signal T -> M (Sc.W T U) unit) :
  (forall sig w o w',
     mA sig w = (o, w') -> scalar_step (logged w (Signal sig)) w') ->
  forall c w o w',
    Sc.method fc mA c (logged w (Invoked c)) = (o, w') ->
    scalar_step w (finish o w').
Proof.
  intros HmA c w o w'.
  destruct c as [n| |mode|t| | | |]; run_scalar.
  - (* request *)
    destruct (num_le0 n); simpl.
    { intros E; inversion E; subst. left. simpl.
      rewrite yields_app. simpl. split; [reflexivity | lia]. }
    destruct (Sc.once (obj w)) eqn:Eo; simpl.
    { intros E; inversion E; subst. left. simpl.
      rewrite !yields_app. simpl. split; [auto | lia]. }
    destruct (mA (OnNext _) _) as [o1 w1] eqn:E1.
    apply HmA in E1. apply scalar_step_spent in E1; [|reflexivity].
    destruct E1 as [Ho1 Hy1]. simpl in Hy1.
    rewrite !yields_app in Hy1. simpl in Hy1.
    assert (Hfire : forall w2, Sc.once (obj w2) = true ->
                      yields (log w2) = yields (log w1) ->
                      scalar_step w w2).
    { intros w2 Ho2 Hy2. right. repeat split; auto. lia. }
    destruct o1 as [[]|e|]; try (intros E; inversion E; subst; auto; fail).
    destruct (mA OnComplete w1) as [o2 w2] eqn:E2.
    apply HmA in E2. apply scalar_step_spent in E2; [|exact Ho1].
    destruct E2 as [Ho2 Hy2]. simpl in Hy2.
    rewrite !yields_app in Hy2. simpl in Hy2.
    destruct o2 as [[]|e|]; intros E; inversion E; subst; apply Hfire;
      simpl; rewrite ?yields_app; simpl; auto; lia.
  - (* cancel *)
    intros E; inversion E; subst. simpl.
    destruct (Sc.once (obj w)) eqn:Eo; [left|right]; simpl;
      rewrite !yields_app; simpl; repeat split; auto; lia.
  - (* requestFusion *)
    destruct (negb _); simpl; intros E; inversion E; subst; left; simpl;
      rewrite !yields_app; simpl; split; auto; lia.
  - (* offer *)
    intros E; inversion E; subst. left. simpl.
    rewrite !yields_app. simpl. split; auto; lia.
  - (* poll *)
    destruct (Sc.once (obj w)) eqn:Eo; simpl; intros E; inversion E; subst;
      [left|right]; simpl; rewrite !yields_app; simpl; repeat split; auto; lia.
  - (* isEmpty *)
    destruct (Sc.once (obj w)) eqn:Eo; simpl; intros E; inversion E; subst;
      left; simpl; rewrite !yields_app; simpl; split; auto; lia.
  - (* size *)
    intros E; inversion E; subst. left. simpl.
    rewrite !yields_app. simpl. split; auto; lia.
  - (* clear *)
    intros E; inversion E; subst. simpl.
    destruct (Sc.once (obj w)) eqn:Eo; [left|right]; simpl;
      rewrite !yields_app; simpl; repeat split; auto; lia.
Qed.

Lemma calls_only_any (b : body T U (qcall T)) : calls_only (fun _ => True) b.
Proof. induction b; constructor; auto. Qed.

Lemma scalar_exec_step fuel c (w : Sc.W T U) o w' :
  exec_scalar fuel c w = (o, w') -> scalar_step w w'.
Proof.
  intros E.
  eapply (@exec_across _ _ _ _ react (Sc.method fc) scalar_step
            (fun _ => True)); eauto.
  - apply scalar_step_refl.
  - apply scalar_step_trans.
  - intros w0 u. left. simpl. auto.
  - intros mA HmA c0 w0 o0 w0' _ Em. eapply scalar_method_step; eauto.
  - intros sig. apply calls_only_any.
Qed.

Lemma scalar_step_inv (w w' : Sc.W T U) : scalar_step w w' -> scalar_inv w -> scalar_inv w'.
Proof.
  unfold scalar_inv.
  intros [[H1 H2]|(H1 & H2 & H3)] [Hy Ho].
  - rewrite H1, H2. auto.
  - specialize (Ho H1). split; [lia | congruence].
Qed.

Lemma run_scalar_inv fuel cs : forall w : Sc.W T U,
  scalar_inv w -> scalar_inv (snd (run_scalar_sub fuel cs w)).
Proof.
  induction cs as [|c cs IH]; intros w Hw; cbn [run].
  - exact Hw.
  - destruct (exec_scalar fuel c w) as [o w1] eqn:E.
    apply scalar_exec_step in E.
    specialize (IH w1 (scalar_step_inv E Hw)).
    destruct (run_scalar_sub fuel cs w1) as [os w2]. exact IH.
Qed.

(** The methods once the value is gone. *)
Lemma scalar_spent fuel n (w : Sc.W T U) :
  Sc.once (obj w) = true ->
  fst (exec_scalar (S fuel) IsEmpty w) = Normal (RBool true)
  /\ fst (exec_scalar (S fuel) Size w) = Normal (RNum (of_Z 0))
  /\ fst (exec_scalar (S fuel) Poll w) = Normal (RVal None)
  /\ (num_gt0 n = true ->
      exec_scalar (S fuel) (Request n) w
      = (Normal RUnit,
         World (obj w) (sub w)
           (log w ++ [Invoked (Request n); Returned RUnit]))).
Proof.
  intros Ho. repeat split.
  - run_scalar. now rewrite Ho.
  - run_scalar. now rewrite Ho.
  - run_scalar. now rewrite Ho.
  - intros Hn. apply num_gt0_not_le0 in Hn.
    run_scalar. rewrite Hn. simpl. rewrite Ho. simpl.
    now rewrite <- app_assoc.
Qed.

(** C6.  Whatever the subscriber does in its callbacks and whatever
    sequence of calls is made on a scalar subscription, its value is
    handed over at most once, by [onNext] or by [poll]; and once it has
    been handed over, [isEmpty()] returns true, [size()] returns 0,
    [poll()] returns [null] and [request(n)], [n > 0], returns without
    any callback. *)
Theorem scalar_value_yielded_at_most_once :
  forall (fuel fuel' : nat) (value : T) (u : U) (cs : list (qcall T))
         (n : number),
    let w := snd (run_scalar_sub fuel cs (Sc.fresh value u)) in
    (yields (log w) <= 1)%nat
    /\ (yields (log w) = 1%nat ->
        fst (exec_scalar (S fuel') IsEmpty w) = Normal (RBool true)
        /\ fst (exec_scalar (S fuel') Size w) = Normal (RNum (of_Z 0))
        /\ fst (exec_scalar (S fuel') Poll w) = Normal (RVal None)
        /\ (num_gt0 n = true ->
            exists w',
              exec_scalar (S fuel') (Request n) w = (Normal RUnit, w')
              /\ signals (log w') = signals (log w)
              /\ yields (log w') = yields (log w))).
Proof.
  intros fuel fuel' value u cs n w.
  assert (Hinv : scalar_inv w).
  { apply run_scalar_inv. split; simpl; auto. }
  destruct Hinv as [Hy Ho]. split; [exact Hy|].
  intros H1.
  assert (Hspent : Sc.once (obj w) = true).
  { destruct (Sc.once (obj w)); auto. specialize (Ho eq_refl). lia. }
  destruct (scalar_spent fuel' n w Hspent) as (Ha & Hb & Hc & Hd).
  repeat (split; [assumption|]).
  intros Hn. eexists. split; [exact (Hd Hn)|].
  simpl. rewrite signals_app, yields_app. simpl.
  rewrite app_nil_r. split; [reflexivity | lia].
Qed.
End ScalarFacts.

(* ------------------------------------------------------------------ *)
(** ** The request/value track of [DeferrendScalarSubscription] *)

Section OrdinaryTrack.
Variable fc : FC.
Variables T U : Type.
Variable react : signal T -> body T U (D.call T).

Implicit Types l : list (entry T (D.call T)).
Implicit Types w : D.W T U.

Lemma cancelled_app l1 l2 : cancelled (l1 ++ l2) = cancelled l1 || cancelled l2.
Proof. apply existsb_app. Qed.

Lemma completions_app l1 l2 :
  completions (l1 ++ l2) = (completions l1 + completions l2)%nat.
Proof. induction l1 as [|e l1 IH]; simpl; auto. rewrite IH. lia. Qed.

Lemma late_completion_app l1 : forall seen l2,
  late_completion seen (l1 ++ l2)
  = late_completion seen l1 || late_completion (seen || cancelled l1) l2.
Proof.
  induction l1 as [|e l1 IH]; intros seen l2; simpl.
  - now rewrite orb_false_r.
  - rewrite IH. now rewrite <- !orb_assoc.
Qed.

(** An entry that is neither a [cancel()] nor an [onComplete()]. *)
Lemma ok_neutral f s l e :
  ordinary_ok f s l -> is_cancel e = false -> is_completion e = false ->
  ordinary_ok f s (l ++ [e]).
Proof.
  intros (Hf & Hc & Hs & Hn & Hl) Ec Eo. unfold ordinary_ok.
  rewrite cancelled_app, completions_app, late_completion_app. simpl.
  rewrite Ec, Eo, Hl, !orb_false_r, andb_false_r. simpl.
  repeat split; auto.
  - intros Hs'. rewrite (Hs Hs'). reflexivity.
  - lia.
Qed.

Lemma ok_not_cancelled f s l :
  ordinary_ok f s l -> s <> CANCELLED -> cancelled l = false.
Proof.
  intros (_ & Hc & _) Hs. destruct (cancelled l); auto.
  exfalso. auto.
Qed.

Lemma ok_set_state f s s' l :
  ordinary_ok f s l -> settled s = false -> ordinary_ok f s' l.
Proof.
  intros H Hs.
  assert (Hc : cancelled l = false).
  { apply (ok_not_cancelled H). intros ->. discriminate. }
  destruct H as (Hf & _ & H0 & Hn & Hl).
  repeat split; auto. rewrite Hc. discriminate.
Qed.

Lemma ok_set_fused f f' s l :
  ordinary_ok f s l -> f' <> NO_VALUE -> ordinary_ok f' s l.
Proof. intros (_ & H) Hf. split; auto. Qed.

Lemma ok_cancel f s l :
  ordinary_ok f s l ->
  ordinary_ok COMPLETE CANCELLED (l ++ [Invoked (D.Queue Cancel)]).
Proof.
  intros (Hf & Hc & Hs & Hn & Hl). unfold ordinary_ok.
  rewrite completions_app, late_completion_app. simpl.
  rewrite Hl, !orb_false_r, andb_false_r.
  repeat split; try discriminate; auto. lia.
Qed.

Lemma ok_completion f l :
  ordinary_ok f HAS_REQUEST_HAS_VALUE l -> completions l = 0%nat ->
  ordinary_ok f HAS_REQUEST_HAS_VALUE (l ++ [Signal OnComplete]).
Proof.
  intros H H0.
  assert (Hc : cancelled l = false).
  { apply (ok_not_cancelled H). discriminate. }
  destruct H as (Hf & _ & Hs & Hn & Hl). unfold ordinary_ok.
  rewrite cancelled_app, completions_app, late_completion_app. simpl.
  rewrite Hc, Hl, H0. simpl.
  repeat split; auto; discriminate.
Qed.

Lemma inv_returned w (r : reply T) :
  ordinary_inv w -> ordinary_inv (logged w (Returned r)).
Proof. intros H. apply ok_neutral; auto. Qed.

(** The push of a value from a state just set to has-request/has-value:
    [onNext], then [onComplete] unless the state is cancelled by then. *)
Lemma push_step (mA : signal T -> M (D.W T U) unit) v w o w' :
  (forall sig w o w',
     mA sig w = (o, w') -> ordinary_step (logged w (Signal sig)) w') ->
  ordinary_inv w ->
  D.mState (obj w) = HAS_REQUEST_HAS_VALUE ->
  completions (log w) = 0%nat ->
  (mA (OnNext v) ;;
   s' <- gets (@D.mState T) ;;
   if negb (DeferredState_eqb s' CANCELLED) then mA OnComplete
   else ret tt) w = (o, w') ->
  ordinary_inv w'.
Proof.
  intros HmA Hinv Hs H0. unfold bind, ret, gets. simpl.
  destruct (mA (OnNext v) w) as [o1 w1] eqn:E1.
  apply HmA in E1.
  destruct E1 as [H1 H1'].
  { unfold ordinary_inv. simpl. apply ok_neutral; auto. }
  destruct H1' as [Hs1 Hc1]; [simpl; now rewrite Hs|].
  simpl in Hc1. rewrite completions_app in Hc1. simpl in Hc1.
  destruct o1 as [[]|e|]; try (intros E; inversion E; subst; exact H1).
  destruct (D.mState (obj w1)) eqn:Es1; try discriminate; simpl.
  - destruct (mA OnComplete w1) as [o2 w2] eqn:E2.
    apply HmA in E2. destruct E2 as [H2 _].
    { unfold ordinary_inv in *. simpl. rewrite Es1 in *.
      apply ok_completion; auto. lia. }
    intros E; inversion E; subst. exact H2.
  - intros E; inversion E; subst. exact H1.
Qed.

Ltac ends E := intros E; inversion E; subst; clear E; simpl.

(** The entry of any method but [cancel]. *)
Lemma inv_invoked w c :
  ordinary_inv w -> c <> D.Queue Cancel ->
  ordinary_inv (logged w (Invoked c)).
Proof.
  intros H Hc. apply ok_neutral; auto.
  destruct c as [t|[]]; auto. contradiction.
Qed.

Lemma completions_invoked w c (r : reply T) :
  completions (log (logged (logged w (Invoked c)) (Returned r)))
  = completions (log w).
Proof. simpl. rewrite !completions_app. simpl. lia. Qed.

(** A method that changes no field. *)
Lemma idle_step w c (r : reply T) :
  c <> D.Queue Cancel ->
  ordinary_step w (logged (logged w (Invoked c)) (Returned r)).
Proof.
  intros Hc Hinv. split.
  - apply inv_returned, inv_invoked; auto.
  - intros Hs. split; [exact Hs | apply completions_invoked].
Qed.

(** A method that throws on entry. *)
Lemma entered_step w c :
  c <> D.Queue Cancel -> ordinary_step w (logged w (Invoked c)).
Proof.
  intros Hc Hinv. split.
  - apply inv_invoked; auto.
  - intros Hs. split; [exact Hs|].
    simpl. rewrite completions_app. simpl. lia.
Qed.

(** A method that only moves the fusion flag, and not to armed. *)
Lemma fused_step w c (r : reply T) f :
  c <> D.Queue Cancel -> f <> NO_VALUE ->
  ordinary_step w
    (World (D.Fields (D.mValue (obj w)) (D.mState (obj w)) f) (sub w)
       ((log w ++ [Invoked c]) ++ [Returned r])).
Proof.
  intros Hc Hf Hinv. split.
  - pose proof (inv_returned r (inv_invoked Hinv Hc)) as H.
    unfold ordinary_inv in *. simpl in *. eapply ok_set_fused; eauto.
  - intros Hs. split; [exact Hs|].
    simpl. rewrite !completions_app. simpl. lia.
Qed.

Lemma ordinary_method_step (mA : signal T -> M (D.W T U) unit) :
  (forall sig w o w',
     mA sig w = (o, w') -> ordinary_step (logged w (Signal sig)) w') ->
  forall c w o w',
    unfused_call fc c ->
    D.method fc mA c (logged w (Invoked c)) = (o, w') ->
    ordinary_step w (finish o w').
Proof.
  intros HmA c w o w' Hc E Hinv.
  assert (Hf : D.mFused (obj w) <> NO_VALUE) by apply Hinv.
  destruct c as [t|[n| |mode|t| | | |]]; revert E; run_methods.
  - (* complete *)
    assert (Hi : ordinary_inv (logged w (Invoked (D.Complete t)))).
    { apply inv_invoked; auto. discriminate. }
    generalize (fun H => @idle_step w (D.Complete t) RUnit H Hinv).
    destruct (D.mFused (obj w)) eqn:Ef; try contradiction; simpl;
      (destruct (D.mState (obj w)) eqn:Es; simpl; intros Hidle;
       [ (* no request, no value: the value is stored *)
         ends E; split; [|discriminate];
         apply inv_returned; unfold ordinary_inv in *; simpl in *;
         rewrite ?Ef, ?Es in Hi |- *; eapply ok_set_state; eauto;
         rewrite Es; reflexivity
       | (* has request: the value is pushed *)
         match goal with
         | |- (let (_, _) := ?X in _) = _ -> _ =>
             destruct X as [o1 w1] eqn:EX
         end;
         eapply (@push_step mA (Some t)) in EX; auto;
         [ destruct o1 as [[]|e|]; ends E; (split; [|discriminate]);
           auto using inv_returned
         | unfold ordinary_inv in *; simpl in *;
           rewrite ?Ef, ?Es in Hi |- *; eapply ok_set_state; eauto;
         rewrite Es; reflexivity
         | simpl; rewrite completions_app; simpl;
           destruct Hinv as (_ & _ & H0 & _); rewrite Es in H0;
           rewrite H0; auto ]
       | ends E; rewrite ?Es; apply Hidle; discriminate
       | ends E; rewrite ?Es; apply Hidle; discriminate
       | ends E; rewrite ?Es; apply Hidle; discriminate ]).
  - (* request *)
    assert (Hi : ordinary_inv (logged w (Invoked (D.Queue (Request n))))).
    { apply inv_invoked; auto. discriminate. }
    generalize (fun H => @idle_step w (D.Queue (Request n)) RUnit H Hinv).
    generalize (fun H => @entered_step w (D.Queue (Request n)) H Hinv).
    destruct (num_le0 n); simpl; intros Hthrow Hidle.
    { ends E. apply Hthrow. discriminate. }
    destruct (D.mState (obj w)) eqn:Es; simpl;
      [ ends E; split; [|rewrite ?Es; discriminate];
        apply inv_returned; unfold ordinary_inv in *; simpl in *;
        eapply ok_set_state; eauto; rewrite Es; reflexivity
      | ends E; rewrite ?Es; apply Hidle; discriminate
      | match goal with
        | |- (let (_, _) := ?X in _) = _ -> _ =>
            destruct X as [o1 w1] eqn:EX
        end;
        eapply (@push_step mA (D.mValue (obj w))) in EX; auto;
        [ destruct o1 as [[]|e|]; ends E;
          (split; [|rewrite ?Es; discriminate]); auto using inv_returned
        | unfold ordinary_inv in *; simpl in *;
          eapply ok_set_state; eauto; rewrite Es; reflexivity
        | simpl; rewrite completions_app; simpl;
          destruct Hinv as (_ & _ & H0 & _); rewrite Es in H0;
          rewrite H0; auto ]
      | ends E; rewrite ?Es; apply Hidle; discriminate
      | ends E; rewrite ?Es; apply Hidle; discriminate ].
  - (* cancel *)
    ends E. split.
    + apply inv_returned. unfold ordinary_inv in *. simpl.
      eapply ok_cancel; eauto.
    + intros _. split; [reflexivity|].
      rewrite !completions_app. simpl. lia.
  - (* requestFusion *)
    simpl in Hc. rewrite (not_grants_test Hc). simpl.
    ends E. apply (@idle_step w (D.Queue (RequestFusion mode))); auto.
    discriminate.
  - (* offer *)
    ends E. apply (@entered_step w (D.Queue (Offer t))); auto. discriminate.
  - (* poll *)
    destruct (FusedState_eqb (D.mFused (obj w)) HAS_VALUE); simpl; ends E.
    + apply (@fused_step w (D.Queue Poll)); auto; discriminate.
    + apply (@idle_step w (D.Queue Poll)); auto. discriminate.
  - (* isEmpty *)
    ends E. apply (@idle_step w (D.Queue IsEmpty)); auto. discriminate.
  - (* size *)
    ends E. apply (@idle_step w (D.Queue Size)); auto. discriminate.
  - (* clear *)
    ends E. apply (@fused_step w (D.Queue Clear)); auto; discriminate.
Qed.

Lemma ordinary_step_trans (a b c : D.W T U) :
  ordinary_step a b -> ordinary_step b c -> ordinary_step a c.
Proof.
  intros Hab Hbc Ha. destruct (Hab Ha) as [Hb Hab'].
  destruct (Hbc Hb) as [Hc Hbc']. split; [exact Hc|].
  intros Hs. destruct (Hab' Hs) as [Hsb Hnb].
  destruct (Hbc' Hsb) as [Hsc Hnc]. split; [exact Hsc | congruence].
Qed.

Lemma ordinary_exec_step fuel c w o w' :
  (forall sig, calls_only (unfused_call fc) (react sig)) ->
  unfused_call fc c ->
  exec react (D.method fc) fuel c w = (o, w') ->
  ordinary_step w w'.
Proof.
  intros Hr Hc E.
  eapply (@exec_across _ _ _ _ react (D.method fc) ordinary_step
            (unfused_call fc)); eauto.
  - intros w0 H. split; auto.
  - apply ordinary_step_trans.
  - intros w0 u H. split; auto.
  - intros mA HmA c0 w0 o0 w0' Hc0 Em.
    eapply ordinary_method_step; eauto.
Qed.

Lemma ordinary_run_inv fuel cs : forall w,
  (forall sig, calls_only (unfused_call fc) (react sig)) ->
  Forall (unfused_call fc) cs ->
  ordinary_inv w ->
  ordinary_inv (snd (run react (D.method fc) fuel cs w)).
Proof.
  induction cs as [|c cs IH]; intros w Hr Hcs Hw; cbn [run].
  - exact Hw.
  - inversion Hcs as [|c' cs' Hc Hcs']; subst.
    destruct (exec react (D.method fc) fuel c w) as [o w1] eqn:E.
    pose proof (ordinary_exec_step _ _ Hr Hc E Hw) as [Hw1 _].
    specialize (IH w1 Hr Hcs' Hw1).
    destruct (run react (D.method fc) fuel cs w1) as [os w2]. exact IH.
Qed.

(** While fusion is never granted, the edge-case policy holds on the
    request/value track: whatever the subscriber does in its callbacks
    (cancelling from inside [onNext] included) and whatever sequence of
    calls is made, [onComplete()] is called at most once and never after
    a [cancel()] has been called. *)
Theorem deferred_ordinary_track_completion :
  forall (fuel : nat) (u : U) (cs : list (D.call T)),
    (forall sig, calls_only (unfused_call fc) (react sig)) ->
    Forall (unfused_call fc) cs ->
    let w := snd (run react (D.method fc) fuel cs (D.fresh u)) in
    (completions (log w) <= 1)%nat
    /\ late_completion false (log w) = false.
Proof.
  intros fuel u cs Hr Hcs w.
  assert (H : ordinary_inv w).
  { apply ordinary_run_inv; auto.
    unfold ordinary_inv, ordinary_ok. simpl.
    repeat split; auto; discriminate. }
  destruct H as (_ & _ & _ & Hn & Hl). auto.
Qed.
End OrdinaryTrack.

(* ------------------------------------------------------------------ *)
(** ** Completion after cancellation *)

(** A callback all of whose calls are allowed when every call is. *)
Lemma calls_only_all T U C (ok : C -> Prop) (b : body T U C) :
  (forall c, ok c) -> calls_only ok b.
Proof. intros H. induction b; constructor; auto. Qed.

(** If every bit of [ASYNC] is also a bit of [BOUNDARY], then
    [requestFusion] grants no mode: a mode that has a bit of [ASYNC] has
    a bit of [BOUNDARY]. *)
Lemma covered_grants_nothing (fc : FC) :
  band (BOUNDARY fc) (ASYNC fc) = ToInt32 (ASYNC fc) ->
  forall mode, ~ grants fc mode.
Proof.
  unfold grants, band. intros Hc mode [Ha Hb]. apply Ha.
  rewrite <- Hc, Z.land_assoc, Hb. apply Z.land_0_l.
Qed.

(** With the constants of the [flow] module no mode is granted:
    [ASYNC = 2] is one of the bits of [BOUNDARY = 7]. *)
Lemma flow_grants_nothing : forall mode, ~ grants fc_flow mode.
Proof. apply covered_grants_nothing. reflexivity. Qed.

(** C2.  For all constants under which [requestFusion] grants no mode,
    which is so for those of the [flow] module ([flow_grants_nothing]):
    whatever the subscriber does in its callbacks (a [cancel()] from
    inside [onNext] and any other re-entrant call included) and whatever
    sequence of calls is made on a fresh instance, [onComplete()] is
    called at most once and never after a [cancel()] has been called. *)
Theorem deferred_completes_once_never_after_cancel :
  forall (fc : FC) (T U : Type) (react : signal T -> body T U (D.call T))
         (fuel : nat) (u : U) (cs : list (D.call T)),
    (forall mode, ~ grants fc mode) ->
    let w := snd (run react (D.method fc) fuel cs (D.fresh u)) in
    (completions (log w) <= 1)%nat
    /\ late_completion false (log w) = false.
Proof.
  intros fc T U react fuel u cs Hfc.
  assert (Hall : forall c : D.call T, unfused_call fc c).
  { intros [v|q]; simpl; auto. destruct q; auto. }
  apply deferred_ordinary_track_completion.
  - intros sig. apply calls_only_all. exact Hall.
  - apply Forall_forall. intros c _. apply Hall.
Qed.

(** The subscriber that cancels inside [onNext], with the constants of
    the [flow] module: whether the push comes from [complete] or from
    [request], and also after a [requestFusion(ASYNC)] (which returns
    [NONE]), [onNext] is followed by no [onComplete()]. *)
Example cancel_in_onNext_drops_completion :
  log (snd (run cancels_in_onNext (D.method fc_flow) 2
              [D.Queue (Request (of_Z 1)); D.Complete 7%nat] (D.fresh tt)))
  = [Invoked (D.Queue (Request (of_Z 1))); Returned RUnit;
     Invoked (D.Complete 7%nat); Signal (OnNext (Some 7%nat));
     Invoked (D.Queue Cancel); Returned RUnit; Returned RUnit]
  /\
  log (snd (run cancels_in_onNext (D.method fc_flow) 2
              [D.Queue (RequestFusion (of_Z 2)); D.Complete 7%nat;
               D.Queue (Request (of_Z 1)); D.Complete 8%nat]
              (D.fresh tt)))
  = [Invoked (D.Queue (RequestFusion (of_Z 2))); Returned (RNum (of_Z 0));
     Invoked (D.Complete 7%nat); Returned RUnit;
     Invoked (D.Queue (Request (of_Z 1))); Signal (OnNext (Some 7%nat));
     Invoked (D.Queue Cancel); Returned RUnit; Returned RUnit;
     Invoked (D.Complete 8%nat); Returned RUnit].
Proof. split; reflexivity. Qed.

(* ------------------------------------------------------------------ *)
(** ** Invalid demand *)

(** C4, as stated, fails on the empty subscription: [request(0)] on it
    returns. *)
Lemma empty_request_accepts_zero :
  num_le0 (of_Z 0) = true
  /\ exec (@passive nat unit (qcall nat)) (Em.method fc_flow) 1
       (Request (of_Z 0)) (World tt tt [])
     = (Normal RUnit,
        World tt tt [Invoked (Request (of_Z 0)); Returned RUnit]).
Proof. split; reflexivity. Qed.

(** C4, as the code has it.  For [n <= 0]: [request(n)] on a scalar and
    on a deferred scalar subscription throws the invalid-demand error
    before any field changes and before any callback; the empty
    subscription and the cancelled sentinel ignore the call and return;
    the fusion-suppressing adapter passes the call to its upstream
    subscription and ends the way [upstream.request(n)] ends. *)
Theorem request_invalid_demand :
  forall (fc : FC) (T U : Type) (n : number),
    num_le0 n = true ->
    (forall (react : signal T -> body T U (qcall T)) fuel (w : Sc.W T U),
        exec react (Sc.method fc) (S fuel) (Request n) w
        = (Throw (InvalidDemand n), logged w (Invoked (Request n))))
    /\ (forall (react : signal T -> body T U (D.call T)) fuel (w : D.W T U),
          exec react (D.method fc) (S fuel) (D.Queue (Request n)) w
          = (Throw (InvalidDemand n),
             logged w (Invoked (D.Queue (Request n)))))
    /\ (forall (react : signal T -> body T U (qcall T)) fuel (w : Em.W T U),
          exec react (Em.method fc) (S fuel) (Request n) w
          = (Normal RUnit,
             logged (logged w (Invoked (Request n))) (Returned RUnit)))
    /\ (forall w : U, CancelledSubscription.request n w = (Normal tt, w))
    /\ (forall (answer : environment T) (up : ref) (w : Ad.W T),
          Ad.s (fst w) = Some up ->
          Ad.request answer n w
          = (answer (snd w) (SubRequest up n),
             (fst w, snd w ++ [SubRequest up n]))).
Proof.
  intros fc T U n Hn. repeat split.
  - intros react fuel w. run_scalar. rewrite Hn. reflexivity.
  - intros react fuel w. run_methods. rewrite Hn. reflexivity.
  - intros answer up w Hs. unfold Ad.request, Ad.field, bind.
    rewrite Hs. reflexivity.
Qed.

Lemma request_invalid_demand_witness :
  num_le0 (of_Z (-1)) = true
  /\ exec (@passive nat unit (qcall nat)) (Sc.method fc_flow) 1
       (Request (of_Z (-1))) (Sc.fresh 7%nat tt)
     = (Throw (InvalidDemand (of_Z (-1))),
        logged (Sc.fresh 7%nat tt) (Invoked (Request (of_Z (-1))))).
Proof.
  split; [reflexivity|].
  apply (proj1 (request_invalid_demand fc_flow nat unit (of_Z (-1))
                  eq_refl)).
Defined.

(* ------------------------------------------------------------------ *)
(** ** Instances *)

Lemma passive_quiet T U C (sig : signal T) : quiet (@passive T U C sig).
Proof. constructor. Qed.

Lemma passive_calls_only T U C ok (sig : signal T) :
  calls_only ok (@passive T U C sig).
Proof. constructor. Qed.

Lemma deferred_value_and_request_either_order_witness :
  (forall sig, calm (requests_in_onNext sig))
  /\ (forall sig, calls_only (harmless fc_flow) (requests_in_onNext sig))
  /\ num_gt0 (of_Z 3) = true
  /\ exists w,
       run requests_in_onNext (D.method fc_flow) 2
         [D.Queue (Request (of_Z 3)); D.Complete 7%nat] (D.fresh tt)
       = ([Normal RUnit; Normal RUnit], w)
       /\ signals (log w) = [OnNext (Some 7%nat); OnComplete].
Proof.
  assert (Hc : forall sig, calm (requests_in_onNext sig)).
  { intros sig. destruct sig; repeat constructor. }
  assert (Hh : forall sig,
             calls_only (harmless fc_flow) (requests_in_onNext sig)).
  { intros sig. destruct sig; repeat constructor; discriminate. }
  split; [exact Hc|]. split; [exact Hh|]. split; [reflexivity|].
  apply (@deferred_value_and_request_either_order fc_flow nat unit
           requests_in_onNext Hc Hh 0 7%nat (of_Z 3) tt
           [D.Queue (Request (of_Z 3)); D.Complete 7%nat]).
  - reflexivity.
  - right. reflexivity.
Defined.

Lemma deferred_completes_once_never_after_cancel_witness :
  (forall mode, ~ grants fc_flow mode)
  /\ let w := snd (run cancels_in_onNext (D.method fc_flow) 2
                     [D.Queue (RequestFusion (of_Z 2));
                      D.Queue (Request (of_Z 1)); D.Complete 7%nat;
                      D.Complete 8%nat; D.Queue Cancel; D.Complete 9%nat]
                     (D.fresh tt)) in
     (completions (log w) <= 1)%nat
     /\ late_completion false (log w) = false.
Proof.
  split; [exact flow_grants_nothing|].
  exact (@deferred_completes_once_never_after_cancel fc_flow nat unit
           cancels_in_onNext 2 tt
           [D.Queue (RequestFusion (of_Z 2));
            D.Queue (Request (of_Z 1)); D.Complete 7%nat;
            D.Complete 8%nat; D.Queue Cancel; D.Complete 9%nat]
           flow_grants_nothing).
Defined.

Lemma deferred_requestFusion_grants_iff_witness :
  ASYNC fc_flow <> NONE fc_flow
  /\ exists r w',
       D.requestFusion fc_flow (of_Z 3) (@D.fresh nat unit tt)
       = (Normal r, w')
       /\ (r = ASYNC fc_flow <-> grants fc_flow (of_Z 3))
       /\ (grants fc_flow (of_Z 3) ->
           w' = World (D.Fields None NO_REQUEST_NO_VALUE NO_VALUE) tt [])
       /\ (~ grants fc_flow (of_Z 3) ->
           r = NONE fc_flow /\ w' = D.fresh tt).
Proof.
  split; [discriminate|].
  apply (@deferred_requestFusion_grants_iff fc_flow nat unit (of_Z 3)
           (D.fresh tt)).
  discriminate.
Defined.

Lemma scalar_value_yielded_at_most_once_witness :
  let w := snd (run (@passive nat unit (qcall nat)) (Sc.method fc_flow) 1
                  [Request (of_Z 1)] (Sc.fresh 7%nat tt)) in
  yields (log w) = 1%nat
  /\ fst (exec passive (Sc.method fc_flow) 1 Poll w) = Normal (RVal None).
Proof.
  intros w. split; [reflexivity|].
  apply (proj2 (@scalar_value_yielded_at_most_once fc_flow nat unit
                  passive 1 0 7%nat tt [Request (of_Z 1)] (of_Z 1))).
  reflexivity.
Defined.

(* ================================================================== *)
(** * Further properties *)

(* ------------------------------------------------------------------ *)
(** ** [SH]: what is accepted, what is called *)

(** X1.  [validRequest(n)] returns true exactly when [n > 0] or [n] is
    NaN (for which [n <= 0] is false as well); in every other case it
    throws the invalid-demand error carrying [n].  It changes nothing. *)
Theorem validRequest_accepts_iff :
  forall (W : Type) (n : number) (w : W),
    (fst (SH.validRequest n w) = Normal true
     <-> (num_gt0 n = true \/ n = NaN))
    /\ (fst (SH.validRequest n w) <> Normal true ->
        fst (SH.validRequest n w) = Throw (InvalidDemand n))
    /\ snd (SH.validRequest n w) = w.
Proof.
  intros W n w. unfold SH.validRequest.
  destruct n as [| | |q]; simpl.
  - repeat split; auto. intros H. contradiction.
  - repeat split; auto. intros H. contradiction.
  - repeat split; try discriminate; auto.
    intros [H|H]; discriminate.
  - destruct (Qnum q <=? 0) eqn:E; simpl.
    + repeat split; try discriminate; auto.
      intros [H|H]; [|discriminate].
      apply Z.ltb_lt in H. apply Z.leb_le in E. lia.
    + repeat split; auto; try contradiction.
      intros _. left. apply Z.ltb_lt. apply Z.leb_gt in E. exact E.
Qed.

(** X2.  [validSubscription(current, s)] returns true exactly when
    [current] is absent and [s] is present.  It calls at most one method
    of another object, and that call is [s.cancel()], made exactly when
    both are present; if that [cancel()] throws, the same error leaves
    [validSubscription]. *)
Theorem validSubscription_outside_calls :
  forall (T : Type) (answer : environment T) (h : list (ext_call T))
         (current s : option ref),
    let r := SH.validSubscription answer current s h in
    (fst r = Normal true <-> current = None /\ s <> None)
    /\ (forall i, s = Some i -> current <> None ->
          snd r = h ++ [SubCancel i])
    /\ (s = None \/ current = None -> snd r = h)
    /\ (forall i e, s = Some i -> current <> None ->
          answer h (SubCancel i) = Throw e -> fst r = Throw e).
Proof.
  intros T answer h current s r. subst r.
  unfold SH.validSubscription, bind, extern, throw, ret.
  destruct s as [i|], current as [c|]; simpl.
  - destruct (answer h (SubCancel i)) as [[]|e|] eqn:Ea; simpl;
      try destruct (ref_eqb c SH.CANCELLED); simpl;
      (split; [split; [discriminate | intros [H _]; discriminate]|]);
      (split; [intros i' Hi _; inversion Hi; reflexivity|]);
      (split; [intros [H|H]; discriminate|]);
      intros i' e' Hi _ He; inversion Hi; subst;
      rewrite Ea in He; inversion He; reflexivity.
  - split; [split; [intros _; split; [reflexivity | discriminate]
                   | reflexivity]|].
    split; [intros i' _ H; contradiction|].
    split; [reflexivity|]. intros i' e _ H. contradiction.
  - split; [split; [discriminate | intros [H _]; discriminate]|].
    split; [intros i' H; discriminate|].
    split; [reflexivity|]. intros i' e H. discriminate.
  - split; [split; [discriminate | intros [_ H]; contradiction]|].
    split; [intros i' H; discriminate|].
    split; [reflexivity|]. intros i' e H. discriminate.
Qed.

(* ------------------------------------------------------------------ *)
(** ** [SuppressFusionSubscriber]: a whole session *)

Section AdapterSessionFacts.
Variable fc : FC.
Variable T : Type.
Variable answer : environment T.
Variable this : ref.

Lemma adapter_method_step (c : adapter_call T) (w : Ad.W T) :
  let w' := snd (adapter_method fc answer this c w) in
  snd w' = snd w ++ forwards this (Ad.mActual (fst w)) (Ad.s (fst w)) [c]
  /\ Ad.mActual (fst w') = Ad.mActual (fst w)
  /\ Ad.s (fst w') = last_upstream (Ad.s (fst w)) [c]
  /\ adapter_view fc c (fst (adapter_method fc answer this c w)).
Proof.
  destruct w as [f h]. cbv zeta.
  destruct c as [s|t|e|  |[n| |mode|t| | | |]]; simpl;
    unfold Ad.onSubscribe, Ad.onNext, Ad.onError, Ad.onComplete,
      Ad.request, Ad.cancel, Ad.outside, Ad.field, bind, extern, ret, throw;
    simpl;
    try (destruct (Ad.s f) as [u|] eqn:Es; simpl);
    try match goal with
        | |- context [answer ?h ?c] => destruct (answer h c) as [[]|?|]
        end;
    simpl; rewrite ?app_nil_r, ?Es; repeat split; reflexivity.
Qed.

(** X3.  Over any sequence of calls on the adapter, whatever the other
    objects do: the calls it makes on them are exactly the four callbacks
    passed on to the wrapped subscriber (with the adapter itself in place
    of the upstream subscription in [onSubscribe]) and [request] and
    [cancel] passed on to the upstream handed over last; the queue view
    calls nothing and always gives the same answers; the wrapped
    subscriber is never replaced. *)
Theorem adapter_session_forwards :
  forall (cs : list (adapter_call T)) (w : Ad.W T),
    let r := adapter_run fc answer this cs w in
    snd (snd r)
    = snd w ++ forwards this (Ad.mActual (fst w)) (Ad.s (fst w)) cs
    /\ Ad.mActual (fst (snd r)) = Ad.mActual (fst w)
    /\ Ad.s (fst (snd r)) = last_upstream (Ad.s (fst w)) cs
    /\ Forall2 (adapter_view fc) cs (fst r).
Proof.
  induction cs as [|c cs IH]; intros w; cbn [adapter_run].
  - simpl. rewrite app_nil_r. repeat split. constructor.
  - destruct (adapter_method_step c w) as (Hh & Ha & Hs & Hv).
    destruct (adapter_method fc answer this c w) as [o w1].
    specialize (IH w1). cbn [fst snd] in *.
    destruct (adapter_run fc answer this cs w1) as [os w2].
    cbn [fst snd] in *. destruct IH as (IHh & IHa & IHs & IHv).
    rewrite IHh, IHa, IHs, Hh, Ha, Hs, <- app_assoc.
    repeat split.
    + f_equal.
      destruct c as [s|t|e|  |[n| |mode|t| | | |]]; simpl;
        try reflexivity; destruct (Ad.s (fst w)); reflexivity.
    + destruct c as [s|t|e|  |[n| |mode|t| | | |]]; reflexivity.
    + constructor; assumption.
Qed.
End AdapterSessionFacts.

(* ------------------------------------------------------------------ *)
(** ** [EmptySubscription]: the same answers for ever *)

(** X4.  Whatever sequence of calls is made on the empty subscription
    and whatever its subscriber would do: each call gets the answer fixed
    for its method ([poll] is [null], [isEmpty] true, [size] 0,
    [requestFusion] the no-fusion constant, [offer] throws, the others
    return), no callback of the subscriber is ever called and nothing
    changes. *)
Theorem empty_subscription_fixed_answers :
  forall (fc : FC) (T U : Type) (react : signal T -> body T U (qcall T))
         (fuel : nat) (cs : list (qcall T)) (w : Em.W T U),
  exists l,
    run react (Em.method fc) (S fuel) cs w
    = (map (empty_answer fc) cs, World (obj w) (sub w) (log w ++ l))
    /\ signals l = [].
Proof.
  intros fc T U react fuel cs. induction cs as [|c cs IH]; intros w.
  - exists []. simpl. rewrite app_nil_r. now destruct w.
  - cbn [run map].
    assert (E : exists l,
               exec react (Em.method fc) (S fuel) c w
               = (empty_answer fc c, World (obj w) (sub w) (log w ++ l))
               /\ signals l = []).
    { destruct c; simpl; unfold bind, emit; simpl;
        eexists; (split; [rewrite <- ?app_assoc; reflexivity|]);
        reflexivity. }
    destruct E as (l1 & E & H1). rewrite E.
    destruct (IH (World (obj w) (sub w) (log w ++ l1))) as (l2 & E2 & H2).
    rewrite E2. simpl. exists (l1 ++ l2).
    rewrite <- app_assoc, signals_app, H1, H2. split; reflexivity.
Qed.

(* ------------------------------------------------------------------ *)
(** ** [ScalarSubscription]: push, failure of the push, silence *)

Section ScalarFurther.
Variable fc : FC.
Variables T U : Type.
Variable react : signal T -> body T U (qcall T).

Lemma signals_tail2 (l : list (entry T (qcall T))) c (r : reply T) :
  signals ((l ++ [Invoked c]) ++ [Returned r]) = signals l.
Proof. rewrite !signals_app. simpl. now rewrite !app_nil_r. Qed.

Lemma signals_tail1 (l : list (entry T (qcall T))) c :
  signals (l ++ [Invoked c]) = signals l.
Proof. rewrite !signals_app. simpl. now rewrite !app_nil_r. Qed.

(** With the value gone, a method calls nothing of the subscriber,
    whatever way of calling it the method is given. *)
Lemma scalar_method_spent (mA : signal T -> M (Sc.W T U) unit) c w o w' :
  Sc.method fc mA c (logged w (Invoked c)) = (o, w') ->
  stays_spent w (finish o w').
Proof.
  intros E Hsp. unfold spent in *. revert E.
  destruct c as [n| |mode|t| | | |]; run_scalar.
  - destruct (num_le0 n); simpl; rewrite ?Hsp; simpl;
      intros E; inversion E; subst; simpl;
      rewrite ?signals_tail2, ?signals_tail1; auto.
  - intros E; inversion E; subst; simpl. rewrite signals_tail2. auto.
  - destruct (negb _); simpl; intros E; inversion E; subst; simpl;
      rewrite signals_tail2; auto.
  - intros E; inversion E; subst; simpl. rewrite signals_tail1. auto.
  - rewrite Hsp. simpl. intros E; inversion E; subst; simpl.
    rewrite signals_tail2. auto.
  - intros E; inversion E; subst; simpl. rewrite signals_tail2. auto.
  - intros E; inversion E; subst; simpl. rewrite signals_tail2. auto.
  - intros E; inversion E; subst; simpl. rewrite signals_tail2. auto.
Qed.

Lemma scalar_exec_stays_spent fuel c (w : Sc.W T U) o w' :
  exec react (Sc.method fc) fuel c w = (o, w') -> stays_spent w w'.
Proof.
  intros E.
  eapply (@exec_across _ _ _ _ react (Sc.method fc) stays_spent
            (fun _ => True)); eauto.
  - intros w0 H. auto.
  - intros a b c0 Hab Hbc Ha. destruct (Hab Ha) as [Hb Hs].
    destruct (Hbc Hb) as [Hc Hs']. split; [exact Hc | congruence].
  - intros w0 u H. auto.
  - intros mA _ c0 w0 o0 w0' _ Em. eapply scalar_method_spent; eauto.
  - intros sig. apply calls_only_any.
Qed.

Lemma scalar_run_stays_spent fuel cs : forall w : Sc.W T U,
  stays_spent w (snd (run react (Sc.method fc) fuel cs w)).
Proof.
  induction cs as [|c cs IH]; intros w; cbn [run].
  - intros H. auto.
  - destruct (exec react (Sc.method fc) fuel c w) as [o w1] eqn:E.
    apply scalar_exec_stays_spent in E. specialize (IH w1).
    destruct (run react (Sc.method fc) fuel cs w1) as [os w2].
    cbn [snd] in *. intros Hw. destruct (E Hw) as [H1 S1].
    destruct (IH H1) as [H2 S2]. split; [exact H2 | congruence].
Qed.

(** X5.  [cancel()] and [clear()] are silent and final: neither calls the
    subscriber, and after either, whatever the subscriber does and
    whatever is called, in whatever order, no callback is ever made. *)
Theorem scalar_cancel_silences :
  forall (c : qcall T) (fuel fuel' : nat) (cs : list (qcall T))
         (w : Sc.W T U),
    c = Cancel \/ c = Clear ->
    let w1 := snd (exec react (Sc.method fc) (S fuel) c w) in
    fst (exec react (Sc.method fc) (S fuel) c w) = Normal RUnit
    /\ signals (log w1) = signals (log w)
    /\ signals (log (snd (run react (Sc.method fc) fuel' cs w1)))
       = signals (log w).
Proof.
  intros c fuel fuel' cs w Hc w1.
  assert (H1 : fst (exec react (Sc.method fc) (S fuel) c w) = Normal RUnit
               /\ spent w1 /\ signals (log w1) = signals (log w)).
  { subst w1. destruct Hc as [-> | ->]; run_scalar;
      rewrite signals_tail2; repeat split. }
  destruct H1 as (Hr & Hsp & Hs). split; [exact Hr|]. split; [exact Hs|].
  destruct (scalar_run_stays_spent fuel' cs Hsp) as [_ Hs']. congruence.
Qed.
End ScalarFurther.

Lemma scalar_cancel_silences_witness :
  let react := @passive nat unit (qcall nat) in
  let w1 := snd (exec react (Sc.method fc_flow) 1 Cancel
                   (Sc.fresh 7%nat tt)) in
  (@Cancel nat = Cancel \/ @Cancel nat = Clear)
  /\ signals (log (snd (run react (Sc.method fc_flow) 2
                         [Request (of_Z 1); Poll] w1))) = [].
Proof.
  intros react w1. split; [left; reflexivity|].
  apply (@scalar_cancel_silences fc_flow nat unit react Cancel 0 2
           [Request (of_Z 1); Poll] (Sc.fresh 7%nat tt)).
  left. reflexivity.
Defined.

Section ScalarPush.
Variable fc : FC.
Variables T U : Type.
Variable react : signal T -> body T U (qcall T).

(** With the value gone and fuel for one call, every method ends. *)
Lemma scalar_exec_spent_ends fuel c (w : Sc.W T U) :
  spent w ->
  exists o w',
    exec react (Sc.method fc) (S fuel) c w = (o, w')
    /\ o <> OutOfFuel /\ spent w'
    /\ signals (log w') = signals (log w).
Proof.
  intros Hsp.
  destruct (exec react (Sc.method fc) (S fuel) c w) as [o w'] eqn:E.
  exists o, w'. split; [reflexivity|].
  destruct (scalar_exec_stays_spent _ _ _ _ E Hsp) as [H1 H2].
  split; [|split; assumption].
  revert E. unfold spent in Hsp.
  destruct c as [n| |mode|t| | | |]; run_scalar;
    try (destruct (num_le0 n); simpl); rewrite ?Hsp; simpl;
    try (destruct (negb _); simpl);
    intros E; inversion E; discriminate.
Qed.

Lemma scalar_run_body_spent fuel b :
  calm b ->
  forall w : Sc.W T U, spent w ->
  exists w',
    run_body (exec react (Sc.method fc) (S fuel)) b w = (Normal tt, w')
    /\ spent w' /\ signals (log w') = signals (log w).
Proof.
  induction 1 as [|k _ IH|u k _ IH|c k _ IH]; intros w Hw.
  - exists w. repeat split; auto.
  - cbn [run_body]. apply IH; auto.
  - cbn [run_body]. apply (IH (World (obj w) u (log w))). exact Hw.
  - cbn [run_body].
    destruct (scalar_exec_spent_ends fuel c Hw) as (o & w1 & E & Ho & Hd & Hs).
    rewrite E.
    destruct o as [r|e|]; [ | | contradiction].
    + destruct (IH (Gave r) w1 Hd) as (w' & E' & Hd' & Hs').
      exists w'. repeat split; auto. congruence.
    + destruct (IH (Caught e) w1 Hd) as (w' & E' & Hd' & Hs').
      exists w'. repeat split; auto. congruence.
Qed.

Lemma scalar_deliver_spent f1 fuel sig (w : Sc.W T U) :
  f1 = S fuel ->
  calm (react sig) ->
  spent w ->
  exists w',
    deliver react (exec react (Sc.method fc) f1) sig w = (Normal tt, w')
    /\ spent w' /\ signals (log w') = signals (log w) ++ [sig].
Proof.
  intros -> Hc Hw. unfold deliver, bind, emit.
  destruct (@scalar_run_body_spent fuel (react sig) Hc
              (World (obj w) (sub w) (log w ++ [Signal sig])) Hw)
    as (w' & E & Hd & Hs).
  exists w'. repeat split; auto.
  rewrite Hs. simpl. now rewrite signals_app.
Qed.

(** X6.  The first [request(n)] that passes validation, on a scalar
    subscription whose value is still there and whose subscriber's
    callbacks return (they may call back into the subscription): it
    returns, the value is gone, and the subscriber has received
    [onNext(value)] then [onComplete()] and nothing else. *)
Theorem scalar_request_pushes :
  forall (fuel : nat) (n : number) (w : Sc.W T U),
    (forall sig, calm (react sig)) ->
    num_le0 n = false ->
    Sc.once (obj w) = false ->
    exists w',
      exec react (Sc.method fc) (S (S fuel)) (Request n) w
      = (Normal RUnit, w')
      /\ Sc.once (obj w') = true
      /\ signals (log w')
         = signals (log w) ++ [OnNext (Some (Sc.mValue (obj w))); OnComplete].
Proof.
  intros fuel n w Hc Hn Ho.
  remember (S fuel) as f1 eqn:Ef1.
  cbn [exec].
  unfold Sc.method at 1, Sc.request, SH.validRequest, Sc.set_once,
    bind, emit, gets, modify, ret, throw.
  simpl. rewrite Hn. simpl. rewrite Ho. simpl.
  match goal with
  | |- context [deliver _ _ ?sig ?w0] =>
      destruct (@scalar_deliver_spent f1 fuel sig w0 Ef1 (Hc sig) eq_refl)
        as (w1 & E1 & Hd1 & Hs1)
  end.
  rewrite E1. simpl.
  destruct (@scalar_deliver_spent f1 fuel OnComplete w1 Ef1 (Hc _) Hd1)
    as (w2 & E2 & Hd2 & Hs2).
  rewrite E2. simpl.
  eexists. split; [reflexivity|]. split; [exact Hd2|].
  simpl. rewrite signals_app, Hs2, Hs1. simpl.
  rewrite signals_app. simpl. now rewrite !app_nil_r, <- !app_assoc.
Qed.

(** X7.  If [onNext] throws, [request(n)] ends by throwing the same
    error, [onComplete()] is not called, and the value is gone all the
    same: no later call, whatever it is, makes any callback. *)
Theorem scalar_onNext_throws :
  forall (fuel fuel' : nat) (n : number) (e : Error) (w : Sc.W T U)
         (cs : list (qcall T)),
    (forall v, react (OnNext v) = Raise e) ->
    num_le0 n = false ->
    Sc.once (obj w) = false ->
    let r := exec react (Sc.method fc) (S fuel) (Request n) w in
    fst r = Throw e
    /\ signals (log (snd r))
       = signals (log w) ++ [OnNext (Some (Sc.mValue (obj w)))]
    /\ signals (log (snd (run react (Sc.method fc) fuel' cs (snd r))))
       = signals (log w) ++ [OnNext (Some (Sc.mValue (obj w)))].
Proof.
  intros fuel fuel' n e w cs He Hn Ho r.
  assert (Hr : r = (Throw e,
                    World (Sc.Fields (Sc.mValue (obj w)) true) (sub w)
                      ((log w ++ [Invoked (Request n)])
                         ++ [Signal (OnNext (Some (Sc.mValue (obj w))))]))).
  { subst r. cbn [exec].
    unfold Sc.method at 1, Sc.request, SH.validRequest, Sc.set_once,
      deliver, bind, emit, gets, modify, ret, throw.
    simpl. rewrite Hn. simpl. rewrite Ho. simpl. rewrite He. reflexivity. }
  rewrite Hr. cbn [fst snd].
  assert (Hs : signals ((log w ++ [Invoked (Request n)])
                          ++ [Signal (OnNext (Some (Sc.mValue (obj w))))])
               = signals (log w) ++ [OnNext (Some (Sc.mValue (obj w)))]).
  { rewrite !signals_app. simpl. now rewrite app_nil_r. }
  split; [reflexivity|]. split; [exact Hs|].
  match goal with
  | |- context [run _ _ _ _ ?w1] =>
      destruct (@scalar_run_stays_spent fc T U react fuel' cs w1 eq_refl)
        as [_ Hsil]
  end.
  rewrite Hsil. exact Hs.
Qed.
End ScalarPush.

Lemma scalar_request_pushes_witness :
  (forall sig, calm (polls_in_onNext sig))
  /\ num_le0 (of_Z 1) = false
  /\ Sc.once (obj (@Sc.fresh nat unit 7%nat tt)) = false
  /\ exists w',
       exec polls_in_onNext (Sc.method fc_flow) 2 (Request (of_Z 1))
         (Sc.fresh 7%nat tt)
       = (Normal RUnit, w')
       /\ Sc.once (obj w') = true
       /\ signals (log w') = [OnNext (Some 7%nat); OnComplete].
Proof.
  assert (Hc : forall sig, calm (polls_in_onNext sig)).
  { intros sig. destruct sig; repeat constructor. }
  split; [exact Hc|]. split; [reflexivity|]. split; [reflexivity|].
  apply (@scalar_request_pushes fc_flow nat unit polls_in_onNext 0
           (of_Z 1) (Sc.fresh 7%nat tt) Hc eq_refl eq_refl).
Defined.

Lemma scalar_onNext_throws_witness :
  let r := exec throws_in_onNext (Sc.method fc_flow) 1 (Request (of_Z 1))
             (Sc.fresh 7%nat tt) in
  (forall v, throws_in_onNext (OnNext v) = Raise (UserError 1))
  /\ fst r = Throw (UserError 1)
  /\ signals (log (snd r)) = [OnNext (Some 7%nat)]
  /\ signals (log (snd (run throws_in_onNext (Sc.method fc_flow) 1
                         [Request (of_Z 2); Poll] (snd r))))
     = [OnNext (Some 7%nat)].
Proof.
  intros r. split; [reflexivity|].
  apply (@scalar_onNext_throws fc_flow nat unit throws_in_onNext 0 1
           (of_Z 1) (UserError 1) (Sc.fresh 7%nat tt)
           [Request (of_Z 2); Poll]
           (fun v => eq_refl) eq_refl eq_refl).
Defined.

(* ------------------------------------------------------------------ *)
(** ** [DeferrendScalarSubscription]: what is never delivered *)

Section DeferredClosed.
Variable fc : FC.
Variables T U : Type.
Variable react : signal T -> body T U (D.call T).

Implicit Types w : D.W T U.

Lemma dsignals_tail2 (l : list (entry T (D.call T))) c (r : reply T) :
  signals ((l ++ [Invoked c]) ++ [Returned r]) = signals l.
Proof. rewrite !signals_app. simpl. now rewrite !app_nil_r. Qed.

Lemma dsignals_tail1 (l : list (entry T (D.call T))) c :
  signals (l ++ [Invoked c]) = signals l.
Proof. rewrite !signals_app. simpl. now rewrite !app_nil_r. Qed.

(** Settled and not armed, a method calls nothing of the subscriber,
    whatever way of calling it the method is given. *)
Lemma method_stays_closed (mA : signal T -> M (D.W T U) unit) c w o w' :
  unfused_call fc c ->
  D.method fc mA c (logged w (Invoked c)) = (o, w') ->
  stays_closed w (finish o w').
Proof.
  intros Hc E [Hs Hf]. unfold closed. revert E.
  destruct c as [t|[n| |mode|t| | | |]]; run_methods.
  - destruct (D.mFused (obj w)) eqn:Ef; try contradiction; simpl;
      (destruct (D.mState (obj w)) eqn:Es; try discriminate; simpl;
       intros E; inversion E; subst; simpl;
       rewrite ?Ef, ?Es, dsignals_tail2; repeat split; auto).
  - destruct (num_le0 n); simpl;
      (destruct (D.mState (obj w)) eqn:Es; try discriminate; simpl;
       intros E; inversion E; subst; simpl;
       rewrite ?Es, ?dsignals_tail2, ?dsignals_tail1; repeat split; auto).
  - intros E; inversion E; subst; simpl.
    rewrite dsignals_tail2. repeat split; auto. discriminate.
  - simpl in Hc. rewrite (not_grants_test Hc). simpl.
    intros E; inversion E; subst; simpl.
    rewrite dsignals_tail2. repeat split; auto.
  - intros E; inversion E; subst; simpl.
    rewrite dsignals_tail1. repeat split; auto.
  - destruct (D.mFused (obj w)) eqn:Ef; try contradiction; simpl;
      intros E; inversion E; subst; simpl;
      rewrite ?Ef, dsignals_tail2; repeat split; auto; discriminate.
  - intros E; inversion E; subst; simpl.
    rewrite dsignals_tail2. repeat split; auto.
  - intros E; inversion E; subst; simpl.
    rewrite dsignals_tail2. repeat split; auto.
  - intros E; inversion E; subst; simpl.
    rewrite dsignals_tail2. repeat split; auto. discriminate.
Qed.

Lemma stays_closed_trans (a b c : D.W T U) :
  stays_closed a b -> stays_closed b c -> stays_closed a c.
Proof.
  intros Hab Hbc Ha. destruct (Hab Ha) as [Hb Hs].
  destruct (Hbc Hb) as [Hc Hs']. split; [exact Hc | congruence].
Qed.

Hypothesis react_unfused : forall sig, calls_only (unfused_call fc) (react sig).

Lemma exec_stays_closed fuel c w o w' :
  unfused_call fc c ->
  exec react (D.method fc) fuel c w = (o, w') -> stays_closed w w'.
Proof.
  intros Hc E.
  eapply (@exec_across _ _ _ _ react (D.method fc) stays_closed
            (unfused_call fc)); eauto.
  - intros w0 H. auto.
  - apply stays_closed_trans.
  - intros w0 u H. auto.
  - intros mA _ c0 w0 o0 w0' Hc0 Em. eapply method_stays_closed; eauto.
Qed.

Lemma run_stays_closed fuel cs : forall w,
  Forall (unfused_call fc) cs ->
  stays_closed w (snd (run react (D.method fc) fuel cs w)).
Proof.
  induction cs as [|c cs IH]; intros w Hcs; cbn [run].
  - intros H. auto.
  - inversion Hcs as [|c' cs' Hc Hcs']; subst.
    destruct (exec react (D.method fc) fuel c w) as [o w1] eqn:E.
    apply exec_stays_closed in E; auto. specialize (IH w1 Hcs').
    destruct (run react (D.method fc) fuel cs w1) as [os w2].
    cbn [snd] in *. eapply stays_closed_trans; eauto.
Qed.

(** X8.  [cancel()] on any state, armed or not: it returns without
    calling the subscriber, leaves the state cancelled and the fusion
    flag complete, and a second [cancel()] changes no field.  From then
    on, as long as no [requestFusion] is granted, no call and no
    re-entrant call of the subscriber makes any callback. *)
Theorem deferred_cancel_absorbs :
  forall (fuel fuel' : nat) (cs : list (D.call T)) (w : D.W T U),
    Forall (unfused_call fc) cs ->
    let r := exec react (D.method fc) (S fuel) (D.Queue Cancel) w in
    fst r = Normal RUnit
    /\ obj (snd r) = D.Fields (D.mValue (obj w)) CANCELLED COMPLETE
    /\ signals (log (snd r)) = signals (log w)
    /\ obj (snd (exec react (D.method fc) (S fuel) (D.Queue Cancel) (snd r)))
       = obj (snd r)
    /\ signals (log (snd (run react (D.method fc) fuel' cs (snd r))))
       = signals (log w).
Proof.
  intros fuel fuel' cs w Hcs r.
  assert (Hr : r = (Normal RUnit,
                    World (D.Fields (D.mValue (obj w)) CANCELLED COMPLETE)
                      (sub w)
                      ((log w ++ [Invoked (D.Queue Cancel)])
                         ++ [Returned RUnit]))).
  { subst r. run_methods. reflexivity. }
  rewrite Hr. cbn [fst snd].
  split; [reflexivity|]. split; [reflexivity|].
  split; [simpl; apply dsignals_tail2|].
  split; [run_methods; reflexivity|].
  match goal with
  | |- context [run _ _ _ _ ?w1] =>
      destruct (@run_stays_closed fuel' cs w1 Hcs) as [_ Hsil]
  end.
  { split; simpl; [reflexivity | discriminate]. }
  rewrite Hsil. simpl. apply dsignals_tail2.
Qed.
End DeferredClosed.

Section DeferredShape.
Variable fc : FC.
Variables T U : Type.
Variable react : signal T -> body T U (D.call T).
Hypothesis react_unfused : forall sig, calls_only (unfused_call fc) (react sig).

Implicit Types w : D.W T U.

Lemma shape_of_nil w :
  D.mFused (obj w) <> NO_VALUE -> signals (log w) = [] -> shape_inv w.
Proof.
  intros Hf Hs. unfold shape_inv. rewrite Hs.
  repeat split; auto. left. reflexivity.
Qed.

Lemma shape_returned w (r : reply T) :
  shape_inv w -> shape_inv (logged w (Returned r)).
Proof.
  intros (Hf & H0 & Hsh). unfold shape_inv. simpl.
  rewrite signals_app. simpl. rewrite app_nil_r. auto.
Qed.

(** The push of a value from a state just set to has-request/has-value,
    nothing having been delivered before. *)
Lemma shape_push (mA : signal T -> M (D.W T U) unit) v w o w' :
  (forall sig w o w',
     mA sig w = (o, w') -> shape_step (logged w (Signal sig)) w') ->
  D.mState (obj w) = HAS_REQUEST_HAS_VALUE ->
  D.mFused (obj w) <> NO_VALUE ->
  signals (log w) = [] ->
  (mA (OnNext v) ;;
   s' <- gets (@D.mState T) ;;
   if negb (DeferredState_eqb s' CANCELLED) then mA OnComplete
   else ret tt) w = (o, w') ->
  shape_inv w'.
Proof.
  intros HmA Hs Hf H0. unfold bind, ret, gets. simpl.
  destruct (mA (OnNext v) w) as [o1 w1] eqn:E1.
  apply HmA in E1.
  destruct E1 as [H1 H1'].
  { unfold shape_inv. simpl. rewrite signals_app, H0, Hs. simpl.
    repeat split; auto; try discriminate. right. left. eauto. }
  destruct H1' as [Hs1 Hg1]; [simpl; now rewrite Hs|].
  simpl in Hg1. rewrite signals_app, H0 in Hg1. simpl in Hg1.
  destruct o1 as [[]|e|]; try (intros E; inversion E; subst; exact H1).
  destruct (D.mState (obj w1)) eqn:Es1; try discriminate; simpl.
  - destruct (mA OnComplete w1) as [o2 w2] eqn:E2.
    apply HmA in E2. destruct E2 as [H2 _].
    { destruct H1 as (Hf1 & _ & _). unfold shape_inv. simpl.
      rewrite signals_app, Hg1, Es1. simpl.
      repeat split; auto; try discriminate. right. right. eauto. }
    intros E; inversion E; subst. exact H2.
  - intros E; inversion E; subst. exact H1.
Qed.

Ltac silent_end H :=
  let E := fresh "E" in
  intros E; inversion E; subst; clear E; unfold finish, logged; simpl;
  apply shape_of_nil; simpl;
  [ first [ assumption | rewrite ?H; discriminate ]
  | rewrite ?dsignals_tail2, ?dsignals_tail1; assumption ].

Lemma shape_method_step (mA : signal T -> M (D.W T U) unit) :
  (forall sig w o w',
     mA sig w = (o, w') -> shape_step (logged w (Signal sig)) w') ->
  forall c w o w',
    unfused_call fc c ->
    D.method fc mA c (logged w (Invoked c)) = (o, w') ->
    shape_step w (finish o w').
Proof.
  intros HmA c w o w' Hc E Hinv.
  destruct Hinv as (Hf & H0 & Hsh).
  destruct (settled (D.mState (obj w))) eqn:Hst.
  - (* settled: nothing is delivered *)
    destruct (@method_stays_closed fc T U mA c w o w' Hc E (conj Hst Hf))
      as [[Hst' Hf'] Hsig].
    split; [|intros _; split; assumption].
    unfold shape_inv. rewrite Hsig, Hst'.
    repeat split; auto; discriminate.
  - (* not settled: nothing was delivered so far *)
    specialize (H0 eq_refl). split; [|discriminate].
    revert E.
    destruct c as [t|[n| |mode|t| | | |]]; run_methods.
    + (* complete *)
      destruct (D.mFused (obj w)) eqn:Ef; try contradiction; simpl;
        (destruct (D.mState (obj w)) eqn:Es; try discriminate; simpl;
         [ silent_end Ef
         | match goal with
           | |- (let (_, _) := ?X in _) = _ -> _ =>
               destruct X as [o1 w1] eqn:EX
           end;
           eapply (@shape_push mA (Some t)) in EX; auto;
           [ destruct o1 as [[]|e|]; intros E; inversion E; subst;
             unfold finish; auto using shape_returned
           | simpl; rewrite Ef; discriminate
           | simpl; rewrite dsignals_tail1; assumption ]
         | silent_end Ef ]).
    + (* request *)
      destruct (num_le0 n); simpl; [silent_end Hf|].
      destruct (D.mState (obj w)) eqn:Es; try discriminate; simpl;
        [ silent_end Hf
        | silent_end Hf
        | match goal with
          | |- (let (_, _) := ?X in _) = _ -> _ =>
              destruct X as [o1 w1] eqn:EX
          end;
          eapply (@shape_push mA (D.mValue (obj w))) in EX; auto;
          [ destruct o1 as [[]|e|]; intros E; inversion E; subst;
            unfold finish; auto using shape_returned
          | simpl; rewrite dsignals_tail1; assumption ] ].
    + silent_end Hf.
    + simpl in Hc. rewrite (not_grants_test Hc). simpl. silent_end Hf.
    + silent_end Hf.
    + destruct (D.mFused (obj w)) eqn:Ef; try contradiction; simpl;
        silent_end Ef.
    + silent_end Hf.
    + silent_end Hf.
    + silent_end Hf.
Qed.

Lemma shape_step_trans (a b c : D.W T U) :
  shape_step a b -> shape_step b c -> shape_step a c.
Proof.
  intros Hab Hbc Ha. destruct (Hab Ha) as [Hb Hab'].
  destruct (Hbc Hb) as [Hc Hbc']. split; [exact Hc|].
  intros Hs. destruct (Hab' Hs) as [Hsb Hnb].
  destruct (Hbc' Hsb) as [Hsc Hnc]. split; [exact Hsc | congruence].
Qed.

Lemma shape_exec_step fuel c w o w' :
  unfused_call fc c ->
  exec react (D.method fc) fuel c w = (o, w') ->
  shape_step w w'.
Proof.
  intros Hc E.
  eapply (@exec_across _ _ _ _ react (D.method fc) shape_step
            (unfused_call fc)); eauto.
  - intros w0 H. split; auto.
  - apply shape_step_trans.
  - intros w0 u H. split; auto.
  - intros mA HmA c0 w0 o0 w0' Hc0 Em.
    eapply shape_method_step; eauto.
Qed.

Lemma shape_run_inv fuel cs : forall w,
  Forall (unfused_call fc) cs ->
  shape_inv w ->
  shape_inv (snd (run react (D.method fc) fuel cs w)).
Proof.
  induction cs as [|c cs IH]; intros w Hcs Hw; cbn [run].
  - exact Hw.
  - inversion Hcs as [|c' cs' Hc Hcs']; subst.
    destruct (exec react (D.method fc) fuel c w) as [o w1] eqn:E.
    pose proof (shape_exec_step _ _ Hc E Hw) as [Hw1 _].
    specialize (IH w1 Hcs' Hw1).
    destruct (run react (D.method fc) fuel cs w1) as [os w2]. exact IH.
Qed.

(** X9.  As long as no [requestFusion] is granted, whatever the
    subscriber does in its callbacks and whatever sequence of calls is
    made on a deferred scalar subscription, all the subscriber ever
    receives is nothing, or one [onNext], or one [onNext] followed by one
    [onComplete]: never a second value, never a completion without a
    value before it, never [onError] or [onSubscribe]. *)
Theorem deferred_signals_shape :
  forall (fuel : nat) (u : U) (cs : list (D.call T)),
    Forall (unfused_call fc) cs ->
    signal_shape
      (signals (log (snd (run react (D.method fc) fuel cs (D.fresh u))))).
Proof.
  intros fuel u cs Hcs.
  assert (H : shape_inv (snd (run react (D.method fc) fuel cs (D.fresh u)))).
  { apply shape_run_inv; auto. apply shape_of_nil; simpl;
      [discriminate | reflexivity]. }
  apply H.
Qed.
End DeferredShape.

(* ------------------------------------------------------------------ *)
(** ** [DeferrendScalarSubscription]: values and the queue view *)

Section DeferredValued.
Variable fc : FC.
Variables T U : Type.
Variable react : signal T -> body T U (D.call T).

Implicit Types w : D.W T U.

Lemma valued_logged w e :
  valued w -> defined_entry e -> valued (logged w e).
Proof.
  intros [Hd Hl] He. split; [exact Hd|].
  simpl. apply Forall_app. split; [exact Hl | repeat constructor; exact He].
Qed.

Lemma defined_some (v : option T) :
  v <> None -> @defined_entry T (Signal (OnNext v)).
Proof. destruct v; simpl; auto. Qed.

(** Pushing a value that is there, with or without the check for a
    cancellation in between. *)
Lemma valued_push (mA : signal T -> M (D.W T U) unit) v w o w' (guard : bool) :
  (forall sig w o w',
     mA sig w = (o, w') -> stays_valued (logged w (Signal sig)) w') ->
  valued w ->
  v <> None ->
  (mA (OnNext v) ;;
   s' <- gets (@D.mState T) ;;
   if negb (guard && DeferredState_eqb s' CANCELLED) then mA OnComplete
   else ret tt) w = (o, w') ->
  valued w'.
Proof.
  intros HmA Hw Hv. unfold bind, ret, gets. simpl.
  destruct (mA (OnNext v) w) as [o1 w1] eqn:E1.
  apply HmA in E1.
  assert (H1 : valued w1).
  { apply E1. apply valued_logged; auto. apply defined_some; auto. }
  destruct o1 as [[]|e|]; try (intros E; inversion E; subst; exact H1).
  destruct (negb _).
  - destruct (mA OnComplete w1) as [o2 w2] eqn:E2.
    apply HmA in E2. intros E; inversion E; subst.
    apply E2. apply valued_logged; simpl; auto.
  - intros E; inversion E; subst. exact H1.
Qed.

Ltac vend Hw :=
  let E := fresh "E" in
  let Hd := fresh "Hd" in
  intros E; inversion E; subst; clear E; unfold finish, logged; simpl;
  split; simpl;
  [ intros Hd;
    first [ discriminate
          | apply (proj1 Hw); destruct Hd as [Hd|Hd];
            first [left; congruence | right; congruence] ]
  | repeat (apply Forall_app; split); try apply (proj2 Hw);
    repeat constructor ].

Lemma valued_method_step (mA : signal T -> M (D.W T U) unit) :
  (forall sig w o w',
     mA sig w = (o, w') -> stays_valued (logged w (Signal sig)) w') ->
  forall c w o w',
    D.method fc mA c (logged w (Invoked c)) = (o, w') ->
    stays_valued w (finish o w').
Proof.
  intros HmA c w o w' E Hw.
  assert (Hi : valued (logged w (Invoked c))).
  { apply valued_logged; simpl; auto. }
  revert E.
  destruct c as [t|[n| |mode|t| | | |]]; run_methods.
  - (* complete *)
    destruct (D.mFused (obj w)) eqn:Ef; simpl;
      try (destruct (D.mState (obj w)) eqn:Es; simpl);
      try vend Hw;
      (match goal with
       | |- (let (_, _) := ?X in _) = _ -> _ =>
           destruct X as [o1 w1] eqn:EX
       end;
       first [ eapply (@valued_push mA (Some t) _ o1 w1 true) in EX
             | eapply (@valued_push mA (Some t) _ o1 w1 false) in EX ];
       [ destruct o1 as [[]|e|]; intros E; inversion E; subst;
         unfold finish; auto using valued_logged; apply valued_logged;
         simpl; auto
       | exact HmA
       | split; simpl;
         [ intros Hd; first [ discriminate
                            | apply (proj1 Hw); destruct Hd as [Hd|Hd];
                              first [left; congruence | right; congruence] ]
         | apply (proj2 Hi) ]
       | discriminate ]).
  - (* request *)
    destruct (num_le0 n); simpl; [vend Hw|].
    destruct (D.mState (obj w)) eqn:Es; simpl; try vend Hw.
    match goal with
    | |- (let (_, _) := ?X in _) = _ -> _ =>
        destruct X as [o1 w1] eqn:EX
    end.
    eapply (@valued_push mA (D.mValue (obj w)) _ o1 w1 true) in EX;
      [ destruct o1 as [[]|e|]; intros E; inversion E; subst;
        unfold finish; auto using valued_logged; apply valued_logged;
        simpl; auto
      | exact HmA
      | split; simpl;
        [ intros Hd; apply (proj1 Hw); destruct Hd as [Hd|Hd];
          first [left; congruence | right; congruence]
        | apply (proj2 Hi) ]
      | apply (proj1 Hw); left; exact Es ].
  - vend Hw.
  - destruct (_ && _); simpl; vend Hw.
  - vend Hw.
  - destruct (D.mFused (obj w)) eqn:Ef; simpl; vend Hw.
  - vend Hw.
  - vend Hw.
  - vend Hw.
Qed.

Lemma valued_exec_step fuel c w o w' :
  exec react (D.method fc) fuel c w = (o, w') -> stays_valued w w'.
Proof.
  intros E.
  eapply (@exec_across _ _ _ _ react (D.method fc) stays_valued
            (fun _ => True)); eauto.
  - intros w0 H. exact H.
  - intros a b c0 Hab Hbc Ha. auto.
  - intros w0 u H. exact H.
  - intros mA HmA c0 w0 o0 w0' _ Em. eapply valued_method_step; eauto.
  - intros sig. generalize (react sig). clear.
    induction b; constructor; auto.
Qed.

Lemma valued_run fuel cs : forall w,
  valued w -> valued (snd (run react (D.method fc) fuel cs w)).
Proof.
  induction cs as [|c cs IH]; intros w Hw; cbn [run].
  - exact Hw.
  - destruct (exec react (D.method fc) fuel c w) as [o w1] eqn:E.
    apply valued_exec_step in E. specialize (IH w1 (E Hw)).
    destruct (run react (D.method fc) fuel cs w1) as [os w2]. exact IH.
Qed.

Lemma valued_fresh (u : U) : valued (@D.fresh T U u).
Proof.
  split; simpl; [|constructor]. intros [H|H]; discriminate.
Qed.

Lemma defined_signals (l : list (entry T (D.call T))) x :
  Forall defined_entry l -> In (OnNext x) (signals l) -> x <> None.
Proof.
  induction 1 as [|e l He _ IH]; simpl; [contradiction|].
  destruct e as [c|[r|v|e| ]|r]; simpl; auto;
    intros [H|H]; auto; try discriminate.
  inversion H; subst. destruct x; [discriminate | contradiction].
Qed.

(** X10.  Whatever the subscriber does, whatever sequence of calls is
    made and whether fusion is armed or not, every [onNext] the
    subscriber receives carries a value: the value field is never pushed
    before it was assigned. *)
Theorem deferred_never_pushes_undefined :
  forall (fuel : nat) (u : U) (cs : list (D.call T)) (x : option T),
    In (OnNext x)
       (signals (log (snd (run react (D.method fc) fuel cs (D.fresh u))))) ->
    x <> None.
Proof.
  intros fuel u cs x. apply defined_signals.
  apply (valued_run fuel cs (valued_fresh u)).
Qed.

(** X11.  In every state the subscription can reach, the queue view is
    consistent: [size()] is 0 when [isEmpty()] is true and 1 when it is
    false; when it is true [poll()] returns [null]; when it is false
    [poll()] returns a value, and after that [isEmpty()] is true. *)
Theorem deferred_queue_view_consistent :
  forall (fuel f : nat) (u : U) (cs : list (D.call T)),
    let w := snd (run react (D.method fc) fuel cs (D.fresh u)) in
    exists b,
      fst (exec react (D.method fc) (S f) (D.Queue IsEmpty) w)
      = Normal (RBool b)
      /\ fst (exec react (D.method fc) (S f) (D.Queue Size) w)
         = Normal (RNum (if b then of_Z 0 else of_Z 1))
      /\ (b = true ->
          fst (exec react (D.method fc) (S f) (D.Queue Poll) w)
          = Normal (RVal None))
      /\ (b = false ->
          exists v w2,
            exec react (D.method fc) (S f) (D.Queue Poll) w
            = (Normal (RVal (Some v)), w2)
            /\ fst (exec react (D.method fc) (S f) (D.Queue IsEmpty) w2)
               = Normal (RBool true)).
Proof.
  intros fuel f u cs w.
  assert (Hv : valued w) by apply (valued_run fuel cs (valued_fresh u)).
  destruct Hv as [Hd _].
  exists (negb (FusedState_eqb (D.mFused (obj w)) HAS_VALUE)).
  split; [run_methods; reflexivity|].
  split; [run_methods; reflexivity|].
  destruct (D.mFused (obj w)) eqn:Ef; cbn [negb FusedState_eqb].
  - split; [intros _; run_methods; rewrite Ef; reflexivity | discriminate].
  - split; [intros _; run_methods; rewrite Ef; reflexivity | discriminate].
  - split; [discriminate|]. intros _.
    destruct (D.mValue (obj w)) as [v|] eqn:Ev.
    + exists v. rewrite (poll_ready fc react f w Ef), Ev.
      eexists. split; [reflexivity|]. run_methods. reflexivity.
    + exfalso. apply Hd; auto.
  - split; [intros _; run_methods; rewrite Ef; reflexivity | discriminate].
Qed.
End DeferredValued.

(* ------------------------------------------------------------------ *)
(** ** [DeferrendScalarSubscription]: no more values out than in *)

Section DeferredBudget.
Variable fc : FC.
Variables T U : Type.
Variable react : signal T -> body T U (D.call T).

Implicit Types w : D.W T U.
Implicit Types l : list (entry T (D.call T)).

Lemma polled_app l1 l2 : polled (l1 ++ l2) = (polled l1 + polled l2)%nat.
Proof.
  induction l1 as [|e l1 IH]; simpl; auto.
  destruct e as [c|sg|[|n|b|[v|]]]; simpl; rewrite IH; reflexivity.
Qed.

Lemma completes_called_app l1 l2 :
  completes_called (l1 ++ l2)
  = (completes_called l1 + completes_called l2)%nat.
Proof.
  induction l1 as [|e l1 IH]; simpl; auto.
  destruct e as [[t|c]|sg|r]; simpl; rewrite IH; reflexivity.
Qed.

Lemma budget_signal w sig : poll_budget w -> poll_budget (logged w (Signal sig)).
Proof.
  unfold poll_budget, ready. simpl.
  rewrite polled_app, completes_called_app. simpl. lia.
Qed.

Lemma budget_returned_unit w : poll_budget w -> poll_budget (logged w (Returned RUnit)).
Proof.
  unfold poll_budget, ready. simpl.
  rewrite polled_app, completes_called_app. simpl. lia.
Qed.

Lemma budget_push (mA : signal T -> M (D.W T U) unit) v w o w' (guard : bool) :
  (forall sig w o w',
     mA sig w = (o, w') -> keeps_budget (logged w (Signal sig)) w') ->
  poll_budget w ->
  (mA (OnNext v) ;;
   s' <- gets (@D.mState T) ;;
   if negb (guard && DeferredState_eqb s' CANCELLED) then mA OnComplete
   else ret tt) w = (o, w') ->
  poll_budget w'.
Proof.
  intros HmA Hw. unfold bind, ret, gets. simpl.
  destruct (mA (OnNext v) w) as [o1 w1] eqn:E1.
  apply HmA in E1.
  assert (H1 : poll_budget w1) by (apply E1, budget_signal, Hw).
  destruct o1 as [[]|e|]; try (intros E; inversion E; subst; exact H1).
  destruct (negb _).
  - destruct (mA OnComplete w1) as [o2 w2] eqn:E2.
    apply HmA in E2. intros E; inversion E; subst.
    apply E2, budget_signal, H1.
  - intros E; inversion E; subst. exact H1.
Qed.

Ltac bend :=
  let E := fresh "E" in
  intros E; inversion E; subst; clear E;
  unfold finish, logged, poll_budget, ready in *; simpl in *;
  rewrite ?polled_app, ?completes_called_app; simpl;
  try match goal with
      | Ef : D.mFused (obj ?w) = _, Hw : (_ <= _)%nat |- _ =>
          rewrite Ef in Hw; simpl in Hw; rewrite ?Ef; simpl
      end;
  repeat match goal with
         | |- context [FusedState_eqb ?f HAS_VALUE] =>
             destruct (FusedState_eqb f HAS_VALUE)
         | H : context [FusedState_eqb ?f HAS_VALUE] |- _ =>
             destruct (FusedState_eqb f HAS_VALUE)
         end;
  repeat match goal with
         | |- context [match ?v with Some _ => _ | None => _ end] =>
             destruct v
         end;
  simpl; lia.

Ltac bside E :=
  unfold poll_budget, ready in *; simpl in *;
  rewrite ?polled_app, ?completes_called_app; simpl;
  rewrite ?E in *; simpl in *; lia.

Lemma budget_method_step (mA : signal T -> M (D.W T U) unit) :
  (forall sig w o w',
     mA sig w = (o, w') -> keeps_budget (logged w (Signal sig)) w') ->
  forall c w o w',
    D.method fc mA c (logged w (Invoked c)) = (o, w') ->
    keeps_budget w (finish o w').
Proof.
  intros HmA c w o w' E Hw. revert E.
  destruct c as [t|[n| |mode|t| | | |]]; run_methods.
  - (* complete *)
    destruct (D.mFused (obj w)) eqn:Ef; simpl;
      try (destruct (D.mState (obj w)) eqn:Es; simpl);
      try bend;
      (match goal with
       | |- (let (_, _) := ?X in _) = _ -> _ =>
           destruct X as [o1 w1] eqn:EX
       end;
       first [ eapply (@budget_push mA (Some t) _ o1 w1 true) in EX
             | eapply (@budget_push mA (Some t) _ o1 w1 false) in EX ];
       [ destruct o1 as [[]|e|]; intros E; inversion E; subst;
         unfold finish; auto using budget_returned_unit
       | exact HmA
       | bside Ef ]).
  - (* request *)
    destruct (num_le0 n); simpl; [bend|].
    destruct (D.mState (obj w)) eqn:Es; simpl; try bend.
    match goal with
    | |- (let (_, _) := ?X in _) = _ -> _ =>
        destruct X as [o1 w1] eqn:EX
    end.
    eapply (@budget_push mA (D.mValue (obj w)) _ o1 w1 true) in EX;
      [ destruct o1 as [[]|e|]; intros E; inversion E; subst;
        unfold finish; auto using budget_returned_unit
      | exact HmA
      | bside Es ].
  - bend.
  - destruct (_ && _); simpl; bend.
  - bend.
  - destruct (D.mFused (obj w)) eqn:Ef; simpl; bend.
  - bend.
  - bend.
  - bend.
Qed.

Lemma budget_exec_step fuel c w o w' :
  exec react (D.method fc) fuel c w = (o, w') -> keeps_budget w w'.
Proof.
  intros E.
  eapply (@exec_across _ _ _ _ react (D.method fc) keeps_budget
            (fun _ => True)); eauto.
  - intros w0 H. exact H.
  - intros a b c0 Hab Hbc Ha. auto.
  - intros w0 u H. exact H.
  - intros mA HmA c0 w0 o0 w0' _ Em. eapply budget_method_step; eauto.
  - intros sig. generalize (react sig). clear.
    induction b; constructor; auto.
Qed.

Lemma budget_run fuel cs : forall w,
  poll_budget w -> poll_budget (snd (run react (D.method fc) fuel cs w)).
Proof.
  induction cs as [|c cs IH]; intros w Hw; cbn [run].
  - exact Hw.
  - destruct (exec react (D.method fc) fuel c w) as [o w1] eqn:E.
    apply budget_exec_step in E. specialize (IH w1 (E Hw)).
    destruct (run react (D.method fc) fuel cs w1) as [os w2]. exact IH.
Qed.

(** X12.  Whatever the subscriber does and whatever sequence of calls is
    made, by the caller or re-entrantly, [poll()] has returned a value
    at most as many times as [complete] was called; in particular it
    returns no value before the first [complete], and one [complete]
    never feeds two polls. *)
Theorem deferred_polls_bounded_by_completes :
  forall (fuel : nat) (u : U) (cs : list (D.call T)),
    let w := snd (run react (D.method fc) fuel cs (D.fresh u)) in
    (polled (log w) <= completes_called (log w))%nat.
Proof.
  intros fuel u cs w.
  assert (H : poll_budget w).
  { apply budget_run. unfold poll_budget, ready. simpl. lia. }
  unfold poll_budget in H. lia.
Qed.
End DeferredBudget.

(* ------------------------------------------------------------------ *)
(** ** [DeferrendScalarSubscription]: the queue is one-shot *)

Section DeferredOneShot.
Variable fc : FC.
Variables T U : Type.
Variable react : signal T -> body T U (D.call T).

(** X13.  After a [poll()], a [clear()] or a [cancel()], whatever state
    they found, nothing is left in the queue: as long as [complete] is
    not called again (by the caller or by the subscriber), every later
    [poll()] returns [null] and every later [isEmpty()] returns true. *)
Theorem deferred_queue_one_shot :
  forall (fuel : nat) (c : D.call T) (cs : list (D.call T)) (w : D.W T U),
    c = D.Queue Poll \/ c = D.Queue Clear \/ c = D.Queue Cancel ->
    (forall sig, calls_only not_complete (react sig)) ->
    Forall not_complete cs ->
    let w1 := snd (exec react (D.method fc) (S fuel) c w) in
    Forall2 answers_empty cs
      (fst (run react (D.method fc) (S fuel) cs w1)).
Proof.
  intros fuel c cs w Hc Hr Hcs w1.
  apply run_answers_empty; auto.
  subst w1. unfold not_ready.
  destruct Hc as [-> | [-> | ->]]; run_methods;
    try (destruct (D.mFused (obj w)) eqn:Ef; simpl; rewrite ?Ef);
    discriminate.
Qed.
End DeferredOneShot.

Lemma deferred_queue_one_shot_witness :
  let react := @passive nat unit (D.call nat) in
  let w := snd (run react (D.method fc_flow) 1
                  [D.Queue (RequestFusion (of_Z 2)); D.Complete 7%nat]
                  (D.fresh tt)) in
  let w1 := snd (exec react (D.method fc_flow) 1 (D.Queue Poll) w) in
  fst (exec react (D.method fc_flow) 1 (D.Queue Poll) w)
  = Normal (RVal None)
  /\ Forall2 answers_empty [D.Queue Poll; D.Queue IsEmpty]
       (fst (run react (D.method fc_flow) 1
               [D.Queue Poll; D.Queue IsEmpty] w1)).
Proof.
  intros react w w1. split; [reflexivity|].
  apply (@deferred_queue_one_shot fc_flow nat unit react 0 (D.Queue Poll)
           [D.Queue Poll; D.Queue IsEmpty] w).
  - left. reflexivity.
  - intros sig. constructor.
  - repeat constructor.
Defined.

Lemma deferred_cancel_absorbs_witness :
  let r := exec cancels_in_onNext (D.method fc_flow) 1 (D.Queue Cancel)
             (D.fresh tt) in
  (forall sig, calls_only (unfused_call fc_flow) (cancels_in_onNext sig))
  /\ Forall (unfused_call fc_flow)
       [D.Complete 7%nat; D.Queue (Request (of_Z 1))]
  /\ signals (log (snd (run cancels_in_onNext (D.method fc_flow) 2
                         [D.Complete 7%nat; D.Queue (Request (of_Z 1))]
                         (snd r)))) = [].
Proof.
  intros r.
  assert (Hr : forall sig,
             calls_only (unfused_call fc_flow) (cancels_in_onNext sig)).
  { intros sig. destruct sig; repeat constructor. }
  assert (Hcs : Forall (unfused_call fc_flow)
                  [D.Complete 7%nat; D.Queue (Request (of_Z 1))]).
  { repeat constructor. }
  split; [exact Hr|]. split; [exact Hcs|].
  apply (@deferred_cancel_absorbs fc_flow nat unit cancels_in_onNext Hr
           0 2 [D.Complete 7%nat; D.Queue (Request (of_Z 1))]
           (D.fresh tt) Hcs).
Defined.

Lemma deferred_signals_shape_witness :
  (forall sig, calls_only (unfused_call fc_flow) (requests_in_onNext sig))
  /\ Forall (unfused_call fc_flow)
       [D.Queue (Request (of_Z 1)); D.Complete 7%nat; D.Complete 8%nat;
        D.Queue (Request (of_Z 2))]
  /\ signal_shape
       (signals (log (snd (run requests_in_onNext (D.method fc_flow) 3
                             [D.Queue (Request (of_Z 1)); D.Complete 7%nat;
                              D.Complete 8%nat; D.Queue (Request (of_Z 2))]
                             (D.fresh tt))))).
Proof.
  assert (Hr : forall sig,
             calls_only (unfused_call fc_flow) (requests_in_onNext sig)).
  { intros sig. destruct sig; repeat constructor. }
  assert (Hcs : Forall (unfused_call fc_flow)
                  [D.Queue (Request (of_Z 1)); D.Complete 7%nat;
                   D.Complete 8%nat; D.Queue (Request (of_Z 2))]).
  { repeat constructor. }
  split; [exact Hr|]. split; [exact Hcs|].
  apply (@deferred_signals_shape fc_flow nat unit requests_in_onNext Hr
           3 tt _ Hcs).
Defined.

(* ------------------------------------------------------------------ *)
(** ** [ScalarSubscription]: the pull path *)

Section ScalarPull.
Variable fc : FC.
Variables T U : Type.
Variable react : signal T -> body T U (qcall T).

Lemma scalar_poll_spent fuel (w : Sc.W T U) :
  Sc.once (obj w) = true ->
  exec react (Sc.method fc) (S fuel) Poll w
  = (Normal (RVal None),
     World (obj w) (sub w) (log w ++ [Invoked Poll; Returned (RVal None)])).
Proof.
  intros Ho. run_scalar. rewrite Ho. simpl. now rewrite <- app_assoc.
Qed.

Lemma scalar_polls_spent fuel k : forall w : Sc.W T U,
  Sc.once (obj w) = true ->
  exists l,
    run react (Sc.method fc) (S fuel) (repeat Poll k) w
    = (repeat (Normal (RVal None)) k, World (obj w) (sub w) (log w ++ l))
    /\ signals l = [].
Proof.
  induction k as [|k IH]; intros w Ho.
  - exists []. simpl. rewrite app_nil_r. now destruct w.
  - cbn [repeat run]. rewrite (scalar_poll_spent fuel w Ho).
    match goal with
    | |- context [run _ _ _ _ ?w1] =>
        destruct (IH w1) as (l & E & Hl); [exact Ho|]
    end.
    rewrite E. simpl.
    eexists. split; [rewrite <- app_assoc; reflexivity|].
    simpl. exact Hl.
Qed.

(** X14.  The pull path of a scalar subscription: [requestFusion] with
    the sync bit in the mode returns the sync constant, the first
    [poll()] after it returns the value, every later [poll()] returns
    [null], and the subscriber is never called, whatever it would do. *)
Theorem scalar_sync_fused_polls :
  forall (fuel : nat) (mode : number) (value : T) (u : U) (k : nat),
    band mode (SYNC fc) <> 0 ->
    exists w,
      run react (Sc.method fc) (S fuel)
        (RequestFusion mode :: Poll :: repeat Poll k) (Sc.fresh value u)
      = (Normal (RNum (SYNC fc)) :: Normal (RVal (Some value))
           :: repeat (Normal (RVal None)) k, w)
      /\ signals (log w) = [].
Proof.
  intros fuel mode value u k Hm. apply Z.eqb_neq in Hm.
  cbn [run].
  assert (E1 : exec react (Sc.method fc) (S fuel) (RequestFusion mode)
                 (Sc.fresh value u)
               = (Normal (RNum (SYNC fc)),
                  World (Sc.new value) u
                    [Invoked (RequestFusion mode);
                     Returned (RNum (SYNC fc))])).
  { run_scalar. rewrite Hm. reflexivity. }
  rewrite E1.
  assert (E2 : exec react (Sc.method fc) (S fuel) Poll
                 (World (Sc.new value) u
                    [Invoked (RequestFusion mode);
                     Returned (RNum (SYNC fc))])
               = (Normal (RVal (Some value)),
                  World (Sc.Fields value true) u
                    [Invoked (RequestFusion mode);
                     Returned (RNum (SYNC fc)); Invoked Poll;
                     Returned (RVal (Some value))])).
  { run_scalar. reflexivity. }
  rewrite E2.
  match goal with
  | |- context [run _ _ _ (repeat _ k) ?w1] =>
      destruct (scalar_polls_spent fuel k w1 eq_refl) as (l & E & Hl)
  end.
  rewrite E. eexists. split; [reflexivity|].
  simpl. exact Hl.
Qed.
End ScalarPull.

Lemma scalar_sync_fused_polls_witness :
  band (of_Z 3) (SYNC fc_flow) <> 0
  /\ exists w,
       run (@passive nat unit (qcall nat)) (Sc.method fc_flow) 1
         [RequestFusion (of_Z 3); Poll; Poll; Poll] (Sc.fresh 7%nat tt)
       = ([Normal (RNum (of_Z 1)); Normal (RVal (Some 7%nat));
           Normal (RVal None); Normal (RVal None)], w)
       /\ signals (log w) = [].
Proof.
  split; [discriminate|].
  apply (@scalar_sync_fused_polls fc_flow nat unit passive 0 (of_Z 3)
           7%nat tt 2).
  discriminate.
Defined.

Lemma deferred_never_pushes_undefined_witness :
  In (OnNext (Some 7%nat))
     (signals (log (snd (run requests_in_onNext (D.method fc_flow) 3
                           [D.Complete 7%nat; D.Queue (Request (of_Z 1))]
                           (D.fresh tt)))))
  /\ Some 7%nat <> None.
Proof.
  assert (Hin : In (OnNext (Some 7%nat))
                  (signals (log (snd (run requests_in_onNext
                                        (D.method fc_flow) 3
                                        [D.Complete 7%nat;
                                         D.Queue (Request (of_Z 1))]
                                        (D.fresh tt)))))).
  { vm_compute. left. reflexivity. }
  split; [exact Hin|].
  exact (@deferred_never_pushes_undefined fc_flow nat unit
           requests_in_onNext 3 tt _ _ Hin).
Defined.
